(** * A scheduler extender: predicates, priorities and bind (main.go)

    Shallow embedding of the handlers declared in [main.go]
    ([TruePredicate], [GroupPriority], [NoBind], [toFloat],
    [indexByPodNodeName]) together with the parts of the libraries they
    call, followed by the properties of the design document that are
    checked against them. *)

From Stdlib Require Import ZArith Bool Lia QArith Qpower.
From Stdlib Require Import Floats.SpecFloat.
From stdpp Require Import base option list strings gmap.

Local Open Scope Z_scope.

(** ** Go base types *)

Module Go.

(** [int64]: an integer in [-2^63, 2^63), arithmetic wraps around. *)
Definition mostPositive : Z := 2 ^ 63 - 1.
Definition mostNegative : Z := - (mostPositive + 1).

Definition wrap64 (z : Z) : Z := (z + 2 ^ 63) mod 2 ^ 64 - 2 ^ 63.

Definition in_int64 (z : Z) : Prop := mostNegative <= z <= mostPositive.

Definition in_int64b (z : Z) : bool :=
  (mostNegative <=? z) && (z <=? mostPositive).

(** [float64]: IEEE 754 binary64, as specified by [SpecFloat] with a
    53 bit mantissa and exponents below 1024. *)
Definition float64 : Type := spec_float.

Definition prec : Z := 53.
Definition emax : Z := 1024.

Definition fadd : float64 -> float64 -> float64 := SFadd prec emax.
Definition fmul : float64 -> float64 -> float64 := SFmul prec emax.
Definition fdiv : float64 -> float64 -> float64 := SFdiv prec emax.

(** The conversion [float64(a)] of an [int64]: round to nearest even. *)
Definition float64_of_int64 (a : Z) : float64 :=
  binary_normalize prec emax a 0 false.

(** The constant [100.0]. *)
Definition f100 : float64 := float64_of_int64 100.

(** The integral part of a finite float, rounded towards zero. *)
Definition truncate (f : float64) : Z :=
  match f with
  | S754_finite s m e => cond_Zopp s (Z.shiftl (Z.pos m) e)
  | _ => 0
  end.

Definition is_finite (f : float64) : bool :=
  match f with
  | S754_zero _ | S754_finite _ _ _ => true
  | _ => false
  end.

Section Conversion.

(** The language leaves the result of [int64(f)] to the implementation
    when [f] is not a number, infinite, or has an integral part outside
    [int64]: [indefinite f] is what the platform yields there. *)
Variable indefinite : float64 -> Z.

Definition int64_of_float64 (f : float64) : Z :=
  if is_finite f && in_int64b (truncate f) then truncate f
  else indefinite f.

End Conversion.

(** On amd64 the conversion instruction yields the "integer indefinite"
    value, the most negative [int64], for every such operand. *)
Definition amd64 : float64 -> Z := fun _ => mostNegative.

(** On arm64 the conversion saturates, and a NaN converts to 0. *)
Definition arm64 : float64 -> Z := fun f =>
  match f with
  | S754_infinity false | S754_finite false _ _ => mostPositive
  | S754_infinity true | S754_finite true _ _ => mostNegative
  | _ => 0
  end.

End Go.

(** ** k8s.io/apimachinery/pkg/api/resource, as far as main.go calls it

    The package is a dependency of the program.  A [Quantity] holds its
    number either as an [int64Amount] (an [int64] value and a decimal
    scale: value * 10^scale) or, once that form overflows, as an
    arbitrary precision decimal ([inf.Dec]: unscaled * 10^-scale).  The
    cached string and the print format of a [Quantity] play no part in
    [Add] and [AsInt64] beyond what is kept here, and are left out.  A
    scale is an [int32] in the package; scales stay far from its bounds
    and are kept as integers. *)

Module resource.
Import Go.

Record int64Amount := mkInt64Amount { value : Z; scale : Z }.

Record Dec := mkDec { unscaled : Z; dscale : Z }.

Record Quantity := mkQuantity { i : int64Amount; d : option Dec }.

(** The zero value [resource.Quantity{}]. *)
Definition zero : Quantity := mkQuantity (mkInt64Amount 0 0) None.

(** math.go: [int64Add] returns a+b, or false if that would overflow. *)
Definition int64Add (a b : Z) : Z * bool :=
  let c := wrap64 (a + b) in
  if (0 <? a) && (0 <? b) then
    if c <? 0 then (0, false) else (c, true)
  else if (a <? 0) && (b <? 0) then
    if 0 <? c then (0, false)
    else if (a =? mostNegative) && (b =? mostNegative) then (0, false)
    else (c, true)
  else (c, true).

(** math.go: [int64MultiplyScale] returns a*b, assuming b is greater than
    one, or false if that would overflow; the product it returns with
    false is the wrapped one. *)
Definition int64MultiplyScale (a b : Z) : Z * bool :=
  if (a =? 0) || (a =? 1) then (wrap64 (a * b), true)
  else if (a =? mostNegative) && negb (b =? 1) then (0, false)
  else let c := wrap64 (a * b) in (c, Z.quot c b =? a).

Definition int64MultiplyScale10 (a : Z) : Z * bool :=
  if (a =? 0) || (a =? 1) then (wrap64 (a * 10), true)
  else if a =? mostNegative then (0, false)
  else let c := wrap64 (a * 10) in (c, Z.quot c 10 =? a).

Definition int64MultiplyScale100 (a : Z) : Z * bool :=
  if (a =? 0) || (a =? 1) then (wrap64 (a * 100), true)
  else if a =? mostNegative then (0, false)
  else let c := wrap64 (a * 100) in (c, Z.quot c 100 =? a).

Definition int64MultiplyScale1000 (a : Z) : Z * bool :=
  if (a =? 0) || (a =? 1) then (wrap64 (a * 1000), true)
  else if a =? mostNegative then (0, false)
  else let c := wrap64 (a * 1000) in (c, Z.quot c 1000 =? a).

(** The loop of [positiveScaleInt64]: [n] multiplications by ten, given
    up at the first one that overflows. *)
Fixpoint scaleLoop (n : nat) (v : Z) : Z * bool :=
  match n with
  | O => (v, true)
  | S n' =>
      let '(v', ok) := int64MultiplyScale v 10 in
      if ok then scaleLoop n' v' else (0, false)
  end.

(** math.go: [positiveScaleInt64] multiplies base by 10^scale, returning
    false if the value overflows. *)
Definition positiveScaleInt64 (base sc : Z) : Z * bool :=
  match sc with
  | 0 => (base, true)
  | 1 => int64MultiplyScale10 base
  | 2 => int64MultiplyScale100 base
  | 3 => int64MultiplyScale1000 base
  | 6 => int64MultiplyScale base 1000000
  | 9 => int64MultiplyScale base 1000000000
  | _ => scaleLoop (Z.to_nat sc) base
  end.

Module int64Amount.

(** amount.go: the amount as an [int64] at scale 0, or false. *)
Definition AsInt64 (a : int64Amount) : Z * bool :=
  if scale a =? 0 then (value a, true)
  else if scale a <? 0 then (0, false)
  else positiveScaleInt64 (value a) (scale a).

(** amount.go: [a.Add(b)] adds in place and reports whether the sum
    fits; [None] stands for false, where [a] is left as it was. *)
Definition Add (a b : int64Amount) : option int64Amount :=
  if value b =? 0 then Some a
  else if value a =? 0 then Some (mkInt64Amount (value b) (scale b))
  else if scale a =? scale b then
    let '(c, ok) := int64Add (value a) (value b) in
    if ok then Some (mkInt64Amount c (scale a)) else None
  else if scale b <? scale a then
    let '(c, ok) := positiveScaleInt64 (value a) (scale a - scale b) in
    if ok then
      let '(c', ok') := int64Add c (value b) in
      if ok' then Some (mkInt64Amount c' (scale b)) else None
    else None
  else
    let '(c, ok) := positiveScaleInt64 (value b) (scale b - scale a) in
    if ok then
      let '(c', ok') := int64Add (value a) c in
      if ok' then Some (mkInt64Amount c' (scale a)) else None
    else None.

Definition AsDec (a : int64Amount) : Dec := mkDec (value a) (- scale a).

End int64Amount.

Module Dec.

(** inf.Dec: bring [x] to the scale [s]. *)
Definition rescale (x : Dec) (s : Z) : Dec :=
  let shift := s - dscale x in
  if shift <? 0 then mkDec (Z.quot (unscaled x) (10 ^ (- shift))) s
  else if 0 <? shift then mkDec (unscaled x * 10 ^ shift) s
  else x.

(** inf.Dec: the sum, at the larger of the two scales. *)
Definition Add (x y : Dec) : Dec :=
  let '(ax, ay) :=
    if dscale x =? dscale y then (x, y)
    else if dscale y <? dscale x then (x, rescale y (dscale x))
    else (rescale x (dscale y), y) in
  mkDec (unscaled ax + unscaled ay) (dscale ax).

End Dec.

Module Quantity.

Definition AsDec (q : Quantity) : Dec :=
  match d q with
  | Some x => x
  | None => int64Amount.AsDec (i q)
  end.

(** quantity.go: [q.Add(y)]. *)
Definition Add (q y : Quantity) : Quantity :=
  let slow := mkQuantity (mkInt64Amount 0 0) (Some (Dec.Add (AsDec q) (AsDec y))) in
  match d q, d y with
  | None, None =>
      match int64Amount.Add (i q) (i y) with
      | Some a => mkQuantity a None
      | None => slow
      end
  | _, _ => slow
  end.

(** quantity.go: [q.AsInt64()], the value as an [int64] if a fast
    conversion is possible. *)
Definition AsInt64 (q : Quantity) : Z * bool :=
  match d q with
  | Some _ => (0, false)
  | None => int64Amount.AsInt64 (i q)
  end.

End Quantity.

End resource.

(** ** k8s.io/api/core/v1: the fields of pods and nodes that main.go reads *)

Module v1.
Import resource.

Definition PodPhase : Type := string.
Definition PodPending : PodPhase := "Pending".
Definition PodRunning : PodPhase := "Running".
Definition PodSucceeded : PodPhase := "Succeeded".
Definition PodFailed : PodPhase := "Failed".
Definition PodUnknown : PodPhase := "Unknown".

Definition ResourceCPU : string := "cpu".
Definition ResourceMemory : string := "memory".

Abbreviation ResourceList := (gmap string Quantity).

(** [rl.Cpu()] and [rl.Memory()]: the entry of that name, or a zero
    quantity when the list has none. *)
Definition Cpu (rl : ResourceList) : Quantity :=
  match rl !! ResourceCPU with Some val => val | None => zero end.

Definition Memory (rl : ResourceList) : Quantity :=
  match rl !! ResourceMemory with Some val => val | None => zero end.

Record ObjectMeta := mkObjectMeta {
  Name : string;
  Namespace : string;
  UID : string;
  Labels : gmap string string
}.

Record ResourceRequirements := mkResourceRequirements {
  Requests : ResourceList
}.

Record Container := mkContainer { Resources : ResourceRequirements }.

Record PodSpec := mkPodSpec {
  NodeName : string;
  Containers : list Container
}.

Record PodStatus := mkPodStatus { Phase : PodPhase }.

Record Pod := mkPod {
  PodMeta : ObjectMeta;
  Spec : PodSpec;
  Status : PodStatus
}.

Record NodeStatus := mkNodeStatus { Capacity : ResourceList }.

Record Node := mkNode {
  NodeMeta : ObjectMeta;
  NodeStat : NodeStatus
}.

End v1.

(** ** The program state and its effects *)

Import Go resource v1.

(** A Go [error] value, by its message; [option error] is an [error] that
    may be nil. *)
Inductive error := Errorf (msg : string).

(** A value of type [interface{}] held by the cache: a [*v1.Pod] (never a
    nil one, the informer stores decoded objects), or a value of some
    other dynamic type. *)
Inductive object :=
  | ObjPod (pod : Pod)
  | ObjOther (typ : string).

(** What the handlers write with the [log] package, one entry per call:
    [log.Println(err)], [log.Println("not pod")] and
    [log.Printf("score for %s %d\n", host, score)]. *)
Inductive logEntry :=
  | LogError (err : error)
  | LogNotPod
  | LogScore (host : string) (score : Z).

(** The package level [indexer], seen through the one method the handlers
    call: [ByIndex(indexName, indexedValue)]. *)
Record Indexer := mkIndexer {
  ByIndex : string -> string -> list object * option error
}.

(** The state a handler runs in: the pod cache and the log written so far. *)
Record World := mkWorld {
  indexer : Indexer;
  logged : list logEntry
}.

(** Handlers are state transformers over [World]. *)
Definition M (A : Type) : Type := World -> A * World.

#[export] Instance M_ret : MRet M := fun A a w => (a, w).

#[export] Instance M_bind : MBind M := fun A B k m w =>
  let '(a, w') := m w in k a w'.

Definition byIndex (indexName indexedValue : string)
  : M (list object * option error) :=
  fun w => (ByIndex (indexer w) indexName indexedValue, w).

Definition logPrint (e : logEntry) : M unit :=
  fun w => (tt, mkWorld (indexer w) (logged w ++ [e])).

(** ** main.go *)

(** schedulerapi.HostPriority *)
Record HostPriority := mkHostPriority { Host : string; Score : Z }.

Abbreviation HostPriorityList := (list HostPriority).

(** [v, ok := m[key]] on a map of strings: the zero value and false for a
    missing key. *)
Definition mapIndex (m : gmap string string) (key : string) : string * bool :=
  match m !! key with
  | Some v => (v, true)
  | None => ("", false)
  end.

(** [priorityList[i].Score = v]; the index is always within the list,
    which [GroupPriority] makes as long as [nodes]. *)
Definition setScore (i : nat) (v : Z) (l : HostPriorityList) : HostPriorityList :=
  alter (fun hp => mkHostPriority (Host hp) v) i l.

(** [priorityList[i].Score] *)
Definition getScore (i : nat) (l : HostPriorityList) : Z :=
  match l !! i with Some hp => Score hp | None => 0 end.

(** [toFloat]: the flag of [AsInt64] is dropped. *)
Definition toFloat (q : Quantity) : float64 :=
  let '(a, _) := Quantity.AsInt64 q in
  float64_of_int64 a.

(** [indexByPodNodeName] *)
Definition indexByPodNodeName (obj : object) : list string * option error :=
  match obj with
  | ObjPod pod =>
      (* We are only interested in active pods with nodeName set *)
      if (String.length (NodeName (Spec pod)) =? 0)%nat
         || String.eqb (Phase (Status pod)) PodSucceeded
         || String.eqb (Phase (Status pod)) PodFailed
      then ([], None)
      else ([NodeName (Spec pod)], None)
  | ObjOther _ => ([], None)
  end.

(** [TruePredicate.Func] *)
Definition TruePredicate (pod : Pod) (node : Node) : M (bool * option error) :=
  mret (true, None).

(** [NoBind.Func] *)
Definition NoBind (podName podNamespace podUID node : string) : M (option error) :=
  mret (Some (Errorf "This extender doesn't support Bind.  Please make 'BindVerb' be empty in your ExtenderConfig.")).

Section GroupPriority.

Variable indefinite : float64 -> Z.

(** [for _, container := range pod.Spec.Containers { cpu.Add(..); mem.Add(..) }] *)
Definition rangeContainers (containers : list Container) (acc : Quantity * Quantity)
  : Quantity * Quantity :=
  foldl (fun '(cpu, mem) container =>
           (Quantity.Add cpu (Cpu (Requests (Resources container))),
            Quantity.Add mem (Memory (Requests (Resources container)))))
        acc containers.

(** [for _, obj := range pods { .. }] *)
Fixpoint rangePods (pods : list object) (acc : Quantity * Quantity)
  : M (Quantity * Quantity) :=
  match pods with
  | [] => mret acc
  | ObjPod pod :: rest => rangePods rest (rangeContainers (Containers (Spec pod)) acc)
  | ObjOther _ :: rest => logPrint LogNotPod ;; rangePods rest acc
  end.

(** One turn of [for i, node := range nodes]. *)
Definition iteration (i : nat) (node : Node) (priorityList : HostPriorityList)
  : M HostPriorityList :=
  let priorityList := <[i := mkHostPriority (Name (NodeMeta node)) 1000]> priorityList in
  let '(group, ok) := mapIndex (Labels (NodeMeta node)) "group" in
  if ok && String.eqb group "Scale" then
    (* Details: (cpu(10 * sum(requested) / capacity) + memory(10 * sum(requested) / capacity)) / 2 *)
    r ← byIndex "node" (Name (NodeMeta node));
    match r with
    | (_, Some err) =>
        let priorityList := setScore i 0 priorityList in
        logPrint (LogError err) ;;
        mret priorityList
    | (pods, None) =>
        acc ← rangePods pods (zero, zero);
        let '(cpu, mem) := acc in
        let nodeCpu := Cpu (Capacity (NodeStat node)) in
        let nodeMem := Memory (Capacity (NodeStat node)) in
        let score :=
          fmul (fadd (fdiv (toFloat cpu) (toFloat nodeCpu))
                     (fdiv (toFloat mem) (toFloat nodeMem))) f100 in
        let priorityList := setScore i (int64_of_float64 indefinite score) priorityList in
        logPrint (LogScore (Name (NodeMeta node)) (getScore i priorityList)) ;;
        mret priorityList
    end
  else
    logPrint (LogScore (Name (NodeMeta node)) (getScore i priorityList)) ;;
    mret priorityList.

Fixpoint rangeNodes (i : nat) (nodes : list Node) (priorityList : HostPriorityList)
  : M HostPriorityList :=
  match nodes with
  | [] => mret priorityList
  | node :: rest =>
      priorityList ← iteration i node priorityList;
      rangeNodes (S i) rest priorityList
  end.

(** [GroupPriority.Func] *)
Definition GroupPriority (pod : Pod) (nodes : list Node)
  : M (HostPriorityList * option error) :=
  let priorityList := replicate (length nodes) (mkHostPriority "" 0) in
  priorityList ← rangeNodes 0 nodes priorityList;
  mret (priorityList, None).

End GroupPriority.

(** ** The pod cache of client-go, for concrete runs

    [cache.NewIndexerInformer] with [cache.Indexers{"node":
    indexByPodNodeName}]: [ByIndex] yields the stored objects that the
    named index function files under the value, and an error for an index
    name that was never registered.  (client-go walks a Go map there; the
    order is fixed to that of the store.) *)
Definition cacheIndexer (store : list object) : Indexer :=
  mkIndexer (fun indexName indexedValue =>
    if String.eqb indexName "node" then
      (filter (fun obj => indexedValue ∈ (indexByPodNodeName obj).1) store, None)
    else
      ([], Some (Errorf ("Index with name " +:+ indexName +:+ " does not exist")))).

(** An indexer whose every lookup fails. *)
Definition brokenIndexer : Indexer :=
  mkIndexer (fun _ _ => ([], Some (Errorf "lookup failed"))).

Module Sample.

(** Quantities as [resource.MustParse] builds them. *)
Definition units (n : Z) : Quantity := mkQuantity (mkInt64Amount n 0) None.
Definition milli (n : Z) : Quantity := mkQuantity (mkInt64Amount n (-3)) None.
Definition Gi (n : Z) : Quantity := units (n * 2 ^ 30).

Definition resources (cpu mem : Quantity) : ResourceList :=
  {[ ResourceCPU := cpu; ResourceMemory := mem ]}.

Definition cpuOnly (cpu : Quantity) : ResourceList := {[ ResourceCPU := cpu ]}.

Definition node (name : string) (labels : gmap string string) (capacity : ResourceList) : Node :=
  mkNode (mkObjectMeta name "" "" labels) (mkNodeStatus capacity).

Definition pod (name nodeName : string) (phase : PodPhase) (requests : list ResourceList) : Pod :=
  mkPod (mkObjectMeta name "default" name ∅)
        (mkPodSpec nodeName (map (fun r => mkContainer (mkResourceRequirements r)) requests))
        (mkPodStatus phase).

Definition scaleGroup : gmap string string := {[ "group" := "Scale" ]}.

Definition n1 : Node := node "n1" scaleGroup (resources (units 4) (Gi 8)).
Definition n2 : Node := node "n2" ∅ (resources (units 4) (Gi 8)).
Definition n3 : Node := node "n3" {[ "group" := "Batch" ]} (resources (units 4) (Gi 8)).
Definition n4 : Node := node "n4" scaleGroup (resources (units 6) (Gi 2)).
Definition n5 : Node := node "n5" scaleGroup (resources (units 100) (Gi 8)).

(** A labelled node that reports no capacity yet. *)
Definition bare : Node := node "bare" scaleGroup ∅.

Definition p1 : Pod := pod "p1" "n1" PodRunning [resources (units 1) (Gi 1)].
Definition p2 : Pod := pod "p2" "n1" PodRunning [resources (units 1) (Gi 1)].
Definition p3 : Pod := pod "p3" "n2" PodRunning [resources (units 3) (Gi 1)].
Definition done1 : Pod := pod "done1" "n1" PodSucceeded [resources (units 1) (Gi 1)].

Definition p4 : Pod := pod "p4" "n4" PodRunning [resources (units 1) (Gi 1); cpuOnly (units 2)].
Definition p5 : Pod := pod "p5" "n5" PodRunning [cpuOnly (units 29)].

Definition store : list object :=
  [ObjPod p1; ObjPod p3; ObjPod done1; ObjPod p2; ObjPod p4; ObjPod p5].

Definition world : World := mkWorld (cacheIndexer store) [].

End Sample.

(** ** What one call of [GroupPriority] computes *)

Section Scoring.

Variable indefinite : float64 -> Z.

(** The requests of the pods among [pods], added up from [acc]. *)
Definition sumRequests (pods : list object) (acc : Quantity * Quantity)
  : Quantity * Quantity :=
  foldl (fun acc obj =>
           match obj with
           | ObjPod pod => rangeContainers (Containers (Spec pod)) acc
           | ObjOther _ => acc
           end) acc pods.

Definition notPodLog (pods : list object) : list logEntry :=
  flat_map (fun obj => match obj with ObjPod _ => [] | ObjOther _ => [LogNotPod] end) pods.

Definition hasScaleLabel (node : Node) : Prop :=
  Labels (NodeMeta node) !! "group" = Some "Scale".

(** The score expression of the source, in [float64]. *)
Definition utilization (cpu mem nodeCpu nodeMem : Quantity) : float64 :=
  fmul (fadd (fdiv (toFloat cpu) (toFloat nodeCpu))
             (fdiv (toFloat mem) (toFloat nodeMem))) f100.

Definition nodeScore (idx : Indexer) (node : Node) : Z :=
  if decide (hasScaleLabel node) then
    match ByIndex idx "node" (Name (NodeMeta node)) with
    | (_, Some _) => 0
    | (pods, None) =>
        let '(cpu, mem) := sumRequests pods (zero, zero) in
        int64_of_float64 indefinite
          (utilization cpu mem (Cpu (Capacity (NodeStat node)))
                               (Memory (Capacity (NodeStat node))))
    end
  else 1000.

Definition nodeLog (idx : Indexer) (node : Node) : list logEntry :=
  if decide (hasScaleLabel node) then
    match ByIndex idx "node" (Name (NodeMeta node)) with
    | (_, Some err) => [LogError err]
    | (pods, None) =>
        notPodLog pods ++ [LogScore (Name (NodeMeta node)) (nodeScore idx node)]
    end
  else [LogScore (Name (NodeMeta node)) 1000].

Definition nodeEntry (idx : Indexer) (node : Node) : HostPriority :=
  mkHostPriority (Name (NodeMeta node)) (nodeScore idx node).

Definition logAppend (w : World) (l : list logEntry) : World :=
  mkWorld (indexer w) (logged w ++ l).

End Scoring.

(** ** Notions the properties are stated with *)

(** A pod is active when it has a node name and neither succeeded nor failed. *)
Definition active (pod : Pod) : Prop :=
  NodeName (Spec pod) ≠ "" ∧
  Phase (Status pod) ≠ PodSucceeded ∧
  Phase (Status pod) ≠ PodFailed.

(** Two caches agree away from [name] when every lookup in the node index
    for another value has the same result in both. *)
Definition agreeExcept (name : string) (idx idx' : Indexer) : Prop :=
  ∀ indexedValue, indexedValue ≠ name →
    ByIndex idx' "node" indexedValue = ByIndex idx "node" indexedValue.

(** The score expression on four integers, in [float64]. *)
Definition ratioScore (cpuRequested cpuCapacity memRequested memCapacity : Z) : float64 :=
  fmul (fadd (fdiv (float64_of_int64 cpuRequested) (float64_of_int64 cpuCapacity))
             (fdiv (float64_of_int64 memRequested) (float64_of_int64 memCapacity))) f100.

(** The same expression on the rationals, rounded towards zero. *)
Definition exactScore (cpuRequested cpuCapacity memRequested memCapacity : Z) : Z :=
  let r := ((inject_Z cpuRequested / inject_Z cpuCapacity
             + inject_Z memRequested / inject_Z memCapacity) * inject_Z 100)%Q in
  Z.quot (Qnum r) (Z.pos (Qden r)).

(** *** The number a quantity stands for *)

Definition pow10 (z : Z) : Q := (inject_Z 10 ^ z)%Q.

Definition amountValue (a : int64Amount) : Q :=
  (inject_Z (value a) * pow10 (scale a))%Q.

Definition decValue (x : Dec) : Q :=
  (inject_Z (unscaled x) * pow10 (- dscale x))%Q.

Definition Qvalue (q : Quantity) : Q :=
  match d q with
  | Some x => decValue x
  | None => amountValue (i q)
  end.

(** The [int64] field of a quantity holds an [int64]. *)
Definition wfQuantity (q : Quantity) : Prop := in_int64 (value (i q)).

Definition wfContainer (c : Container) : Prop :=
  wfQuantity (Cpu (Requests (Resources c))) ∧
  wfQuantity (Memory (Requests (Resources c))).

Definition wfObject (obj : object) : Prop :=
  match obj with
  | ObjPod pod => Forall wfContainer (Containers (Spec pod))
  | ObjOther _ => True
  end.




(** The containers of the pods among [pods], in order. *)
Definition containersOf (pods : list object) : list Container :=
  flat_map (fun obj => match obj with
                       | ObjPod pod => Containers (Spec pod)
                       | ObjOther _ => []
                       end) pods.

Definition Qsum (l : list Quantity) : Q :=
  foldr (fun q acc => (Qvalue q + acc)%Q) 0%Q l.

Definition cpuRequests (pods : list object) : Q :=
  Qsum (map (fun c => Cpu (Requests (Resources c))) (containersOf pods)).

Definition memRequests (pods : list object) : Q :=
  Qsum (map (fun c => Memory (Requests (Resources c))) (containersOf pods)).

(** *** Rounding, by mantissa and exponent offset *)

(** The record that [shr] leaves; it does not depend on the exponent. *)
Definition shr_rec (r : shr_record) (n : Z) : shr_record := fst (shr r 0 n).

(** The mantissa of [binary_round_aux] after the first shift and rounding. *)
Definition round_m1 (m : Z) (l : location) : Z :=
  let r1 := shr_rec (shr_record_of_loc m l) (Zdigits2 m - 53) in
  round_nearest_even (shr_m r1) (loc_of_shr_record r1).

(** The mantissa that [binary_round_aux] returns. *)
Definition round_m (m : Z) (l : location) : Z :=
  let m1 := round_m1 m l in
  shr_m (shr_rec (shr_record_of_loc m1 loc_Exact) (Zdigits2 m1 - 53)).

(** What [binary_round_aux] adds to the exponent. *)
Definition round_d (m : Z) (l : location) : Z :=
  Z.max 0 (Zdigits2 m - 53) + Z.max 0 (Zdigits2 (round_m1 m l) - 53).

(** The float 0.5. *)
Definition fhalf : float64 := S754_finite false 4503599627370496 (-53).
(** ** Further notions: the log, the objects of a lookup *)

(** The (host, score) pairs of the score lines of a log, in order. *)
Definition scoresLogged (l : list logEntry) : list (string * Z) :=
  omap (fun e => match e with LogScore host score => Some (host, score) | _ => None end) l.

(** The errors of the error lines of a log, in order. *)
Definition errorsLogged (l : list logEntry) : list error :=
  omap (fun e => match e with LogError err => Some err | _ => None end) l.

(** The lookup that [GroupPriority] makes for [node] returns an error. *)
Definition lookupError (idx : Indexer) (node : Node) : option error :=
  if decide (hasScaleLabel node)
  then (ByIndex idx "node" (Name (NodeMeta node))).2
  else None.

Definition isPod (obj : object) : bool :=
  match obj with ObjPod _ => true | ObjOther _ => false end.

(** A container that declares neither a CPU nor a memory request. *)
Definition noRequests (c : Container) : Prop :=
  Requests (Resources c) !! ResourceCPU = None ∧
  Requests (Resources c) !! ResourceMemory = None.

(** An object that adds nothing in the pod loop: no pod, or a pod all of
    whose containers declare no requests. *)
Definition requestsNothing (obj : object) : Prop :=
  match obj with
  | ObjPod pod => Forall noRequests (Containers (Spec pod))
  | ObjOther _ => True
  end.

(** Two quantities that [toFloat] cannot tell apart because they are the
    same [int64] amount, or are both in arbitrary precision form. *)
Definition sameForm (q q' : Quantity) : Prop :=
  (d q = None ∧ d q' = None ∧ i q = i q') ∨ (is_Some (d q) ∧ is_Some (d q')).


(** [padded l l']: [l'] is [l] with objects inserted that request nothing. *)
Inductive padded : list object → list object → Prop :=
  | padded_nil : padded [] []
  | padded_keep obj l l' : padded l l' → padded (obj :: l) (obj :: l')
  | padded_skip obj l l' : requestsNothing obj → padded l l' → padded l (obj :: l').

(** An object that the node index files under some key: an active pod. *)
Definition activeObj (obj : object) : Prop :=
  match obj with
  | ObjPod pod => active pod
  | ObjOther _ => False
  end.

#[export] Instance activeObj_dec (obj : object) : Decision (activeObj obj).
Proof. destruct obj; simpl; apply _. Defined.

(** Two caches that answer every lookup in the node index with the same
    error and with lists related by [R]. *)
Definition lookupsRelated (R : list object → list object → Prop) (idx idx' : Indexer) : Prop :=
  ∀ name,
    R (ByIndex idx "node" name).1 (ByIndex idx' "node" name).1 ∧
    (ByIndex idx "node" name).2 = (ByIndex idx' "node" name).2.

(** Sample data: a pod without containers, and caches that answer every
    lookup with a fixed list. *)
Definition idlePod : Pod := Sample.pod "idle" "n1" PodRunning [].

Definition fixedIndexer (pods : list object) : Indexer :=
  mkIndexer (fun _ _ => (pods, None)).

(** ** Further notions: quantities in [int64] form that are not negative *)

(** A quantity as parsing yields it for a request that is not negative and
    has at most 18 digits: in [int64] form, with a value from 0 up. *)
Definition plainNonneg (q : Quantity) : Prop :=
  d q = None ∧ 0 <= value (i q) <= mostPositive.

Definition plainContainer (c : Container) : Prop :=
  plainNonneg (Cpu (Requests (Resources c))) ∧
  plainNonneg (Memory (Requests (Resources c))).

Definition plainObject (obj : object) : Prop :=
  match obj with
  | ObjPod pod => Forall plainContainer (Containers (Spec pod))
  | ObjOther _ => True
  end.

Definition optMin (a b : option Z) : option Z :=
  match a, b with
  | Some x, Some y => Some (Z.min x y)
  | Some x, None => Some x
  | None, _ => b
  end.

(** The least scale among the amounts that are not zero. *)
Definition minScale (l : list int64Amount) : option Z :=
  foldr (fun a acc => optMin (if value a =? 0 then None else Some (scale a)) acc) None l.

(** The sum of the amounts, counted in units of 10^s. *)
Definition scaledSum (s : Z) (l : list int64Amount) : Z :=
  foldr (fun a acc => value a * 10 ^ (scale a - s) + acc) 0 l.

(** What adding up [l] from zero leaves, when it still is an [int64] amount. *)
Definition plainTotal (l : list int64Amount) : option int64Amount :=
  match minScale l with
  | None => Some (mkInt64Amount 0 0)
  | Some s =>
      if in_int64b (scaledSum s l) then Some (mkInt64Amount (scaledSum s l) s)
      else None
  end.

Definition cpuOf (c : Container) : Quantity := Cpu (Requests (Resources c)).
Definition memOf (c : Container) : Quantity := Memory (Requests (Resources c)).

(** The lists of two lookups hold the same plain objects, in any order. *)
Definition reordered (l l' : list object) : Prop :=
  l ≡ₚ l' ∧ Forall plainObject l.

(** Sample data: pods with requests in thousandths, at several scales. *)
Definition milliPod1 : Pod :=
  Sample.pod "m1" "n1" PodRunning [Sample.resources (Sample.milli 500) (Sample.Gi 1)].
Definition milliPod2 : Pod :=
  Sample.pod "m2" "n1" PodRunning
    [Sample.resources (Sample.units 1) (Sample.Gi 1);
     Sample.resources (Sample.milli 1500) (Sample.units 0)].

(** ** main.go: the log level *)

Module colog.

(** github.com/comail/colog: the levels that [StringToLevel] returns. *)
Inductive Level := LTrace | LDebug | LInfo | LWarning | LError | LAlert.

End colog.

Module strings.

(** A byte below [utf8.RuneSelf]. *)
Definition isASCIIByte (c : Ascii.ascii) : bool := (Ascii.nat_of_ascii c <? 128)%nat.

(** ['a' <= c && c <= 'z'] *)
Definition isLowerByte (c : Ascii.ascii) : bool :=
  (97 <=? Ascii.nat_of_ascii c)%nat && (Ascii.nat_of_ascii c <=? 122)%nat.

(** [c -= 'a' - 'A'] on a lower case letter, any other byte as it is. *)
Definition upperByte (c : Ascii.ascii) : Ascii.ascii :=
  if isLowerByte c then Ascii.ascii_of_nat (Ascii.nat_of_ascii c - 32) else c.

Fixpoint isASCII (s : string) : bool :=
  match s with
  | EmptyString => true
  | String c rest => isASCIIByte c && isASCII rest
  end.

Fixpoint hasLower (s : string) : bool :=
  match s with
  | EmptyString => false
  | String c rest => isLowerByte c || hasLower rest
  end.

Fixpoint mapBytes (f : Ascii.ascii -> Ascii.ascii) (s : string) : string :=
  match s with
  | EmptyString => EmptyString
  | String c rest => String (f c) (mapBytes f rest)
  end.

Section ToUpper.

(** [strings.Map(unicode.ToUpper, s)], the path of [ToUpper] for a string
    that has a byte outside ASCII; the Unicode tables are not modelled. *)
Variable unicodeToUpper : string -> string.

(** [strings.ToUpper]: a string of ASCII bytes is returned as it is when it
    has no lower case letter, and with its letters shifted otherwise. *)
Definition ToUpper (s : string) : string :=
  if isASCII s then
    if hasLower s then mapBytes upperByte s else s
  else unicodeToUpper s.

End ToUpper.

End strings.

(** The double quote and the line feed of the warning. *)
Definition dquote : string := String (Ascii.ascii_of_nat 34) EmptyString.
Definition newline : string := String (Ascii.ascii_of_nat 10) EmptyString.

(** The line that [StringToLevel] logs for a level it does not know. *)
Definition levelWarning (level : string) : string :=
  "warning: LOG_LEVEL=" +:+ dquote +:+ level +:+ dquote +:+
  " is empty or invalid, fallling back to " +:+ dquote +:+ "INFO" +:+ dquote +:+
  "." +:+ newline.

Section StringToLevel.

Variable unicodeToUpper : string -> string.

(** [StringToLevel]: the level, and the lines written to the log. *)
Definition StringToLevel (levelStr : string) : colog.Level * list string :=
  let level := strings.ToUpper unicodeToUpper levelStr in
  if String.eqb level "TRACE" then (colog.LTrace, [])
  else if String.eqb level "DEBUG" then (colog.LDebug, [])
  else if String.eqb level "INFO" then (colog.LInfo, [])
  else if String.eqb level "WARNING" then (colog.LWarning, [])
  else if String.eqb level "ERROR" then (colog.LError, [])
  else if String.eqb level "ALERT" then (colog.LAlert, [])
  else (colog.LInfo, [levelWarning level]).

End StringToLevel.


(** ** Further notions: floats between zero and a bound *)

(** [upTo lo N f]: [f] is a zero, or a positive float of exponent at least
    [lo] and of value at most [N]; values are compared after scaling by
    2^300, which makes them whole numbers for [lo >= -300]. *)
Definition upTo (lo N : Z) (f : float64) : Prop :=
  match f with
  | S754_zero _ => True
  | S754_finite false m e => lo <= e ∧ Z.pos m * 2 ^ (e + 300) <= N * 2 ^ 300
  | _ => False
  end.

(** ** The loops of [GroupPriority], run *)

Ltac run := unfold mbind, M_bind, mret, M_ret, byIndex, logPrint; simpl.

Lemma logAppend_nil w : logAppend w [] = w.
Proof. destruct w; unfold logAppend; simpl; by rewrite app_nil_r. Qed.

Lemma logAppend_app w l1 l2 : logAppend (logAppend w l1) l2 = logAppend w (l1 ++ l2).
Proof. unfold logAppend; simpl; by rewrite app_assoc. Qed.

Lemma rangePods_run pods : ∀ acc w,
  rangePods pods acc w = (sumRequests pods acc, logAppend w (notPodLog pods)).
Proof.
  induction pods as [|[pod|typ] pods IH]; intros acc w; simpl.
  - run. by rewrite logAppend_nil.
  - apply IH.
  - run. rewrite IH. f_equal. unfold logAppend; simpl. by rewrite <- app_assoc.
Qed.

Lemma setScore_insert i v hp (l : HostPriorityList) :
  setScore i v (<[i := hp]> l) = <[i := mkHostPriority (Host hp) v]> l.
Proof.
  unfold setScore. revert i; induction l as [|x l IH]; intros [|i]; simpl; try done.
  f_equal. apply IH.
Qed.

Lemma getScore_insert i hp (l : HostPriorityList) :
  (i < length l)%nat → getScore i (<[i := hp]> l) = Score hp.
Proof. intros Hi. unfold getScore. by rewrite list_lookup_insert_eq. Qed.

Lemma scaleLabel_test node :
  (let '(group, ok) := mapIndex (Labels (NodeMeta node)) "group" in
   ok && String.eqb group "Scale") = bool_decide (hasScaleLabel node).
Proof.
  unfold mapIndex, hasScaleLabel.
  destruct (Labels (NodeMeta node) !! "group") as [group|].
  - destruct (String.eqb_spec group "Scale") as [->|Hn].
    + by rewrite bool_decide_eq_true_2.
    + rewrite bool_decide_eq_false_2; [done|]. by intros [= ->].
  - by rewrite bool_decide_eq_false_2.
Qed.

Lemma iteration_run indefinite i node (l : HostPriorityList) w :
  (i < length l)%nat →
  iteration indefinite i node l w =
    (<[i := nodeEntry indefinite (indexer w) node]> l,
     logAppend w (nodeLog indefinite (indexer w) node)).
Proof.
  intros Hi. unfold iteration, nodeEntry, nodeLog, nodeScore.
  pose proof (scaleLabel_test node) as Ht.
  destruct (mapIndex (Labels (NodeMeta node)) "group") as [group ok]. rewrite Ht.
  destruct (decide (hasScaleLabel node)) as [Hl|Hl].
  - rewrite (bool_decide_eq_true_2 _ Hl). run. destruct (ByIndex (indexer w) "node" (Name (NodeMeta node))) as [pods [err|]].
    + run. by rewrite setScore_insert.
    + run. rewrite rangePods_run.
      destruct (sumRequests pods (zero, zero)) as [cpu mem]. run.
      rewrite setScore_insert, getScore_insert by done. simpl.
      f_equal. unfold logAppend; simpl. by rewrite <- app_assoc.
  - rewrite (bool_decide_eq_false_2 _ Hl). run. by rewrite getScore_insert.
Qed.

Lemma rangeNodes_run indefinite nodes : ∀ i (l : HostPriorityList) w,
  (i + length nodes ≤ length l)%nat →
  rangeNodes indefinite i nodes l w =
    (take i l ++ map (nodeEntry indefinite (indexer w)) nodes ++ drop (i + length nodes) l,
     logAppend w (flat_map (nodeLog indefinite (indexer w)) nodes)).
Proof.
  induction nodes as [|node nodes IH]; intros i l w Hlen; simpl in *.
  - run. rewrite Nat.add_0_r, take_drop. by rewrite logAppend_nil.
  - run. rewrite iteration_run by lia. rewrite IH by (rewrite length_insert; lia).
    simpl. rewrite logAppend_app. f_equal.
    rewrite drop_insert_lt by lia.
    rewrite (take_S_r _ i (nodeEntry indefinite (indexer w) node))
      by (apply list_lookup_insert_eq; lia).
    rewrite take_insert_ge, <- app_assoc by lia. simpl.
    by replace (S (i + length nodes))%nat with (i + S (length nodes))%nat by lia.
Qed.

(** The whole call: one entry per node, the log extended, no error. *)
Lemma GroupPriority_run indefinite pod nodes w :
  GroupPriority indefinite pod nodes w =
    ((map (nodeEntry indefinite (indexer w)) nodes, None),
     logAppend w (flat_map (nodeLog indefinite (indexer w)) nodes)).
Proof.
  unfold GroupPriority. run.
  rewrite rangeNodes_run by (rewrite length_replicate; lia).
  simpl. rewrite drop_ge by (rewrite length_replicate; lia).
  by rewrite app_nil_r.
Qed.

(** ** Rounding integers to [float64] *)

Lemma iter_pos_iter {A} (f : A -> A) p : forall x, SpecFloat.iter_pos f p x = Pos.iter f x p.
Proof.
  induction p as [p IH|p IH|]; intros x; simpl.
  - rewrite !IH. now rewrite !Pos.iter_swap.
  - now rewrite !IH.
  - reflexivity.
Qed.

Lemma digits2_size p : digits2_pos p = Pos.size p.
Proof. induction p; simpl; congruence. Qed.

Lemma digits2_bounds p :
  2 ^ (Z.pos (digits2_pos p) - 1) <= Z.pos p < 2 ^ Z.pos (digits2_pos p).
Proof.
  rewrite digits2_size. split.
  - pose proof (Pos.size_le p) as H.
    apply Pos2Z.pos_le_pos in H. rewrite Pos2Z.inj_pow in H.
    replace (Z.pos (Pos.size p)) with (Z.succ (Z.pos (Pos.size p) - 1)) in H by lia.
    rewrite Z.pow_succ_r in H by lia. lia.
  - pose proof (Pos.size_gt p) as H.
    apply Pos2Z.pos_lt_pos in H. now rewrite Pos2Z.inj_pow in H.
Qed.

Lemma shr_1_m r : 0 <= shr_m r -> shr_m (shr_1 r) = shr_m r / 2.
Proof.
  destruct r as [m b s]; simpl. intros Hm.
  destruct m as [|[p|p|]|p]; simpl; try reflexivity; try lia.
  - rewrite Pos2Z.inj_xI. apply Z.div_unique with 1; lia.
  - rewrite Pos2Z.inj_xO. apply Z.div_unique with 0; lia.
Qed.

Lemma shr_iter_m p r :
  0 <= shr_m r -> shr_m (SpecFloat.iter_pos shr_1 p r) = shr_m r / 2 ^ Z.pos p.
Proof.
  rewrite iter_pos_iter. revert r.
  induction p as [|p IH] using Pos.peano_ind; intros r Hr.
  - simpl. rewrite shr_1_m by assumption. reflexivity.
  - rewrite Pos.iter_succ_r. rewrite IH.
    + rewrite shr_1_m by assumption. rewrite Pos2Z.inj_succ, Z.pow_succ_r by lia.
      rewrite Z.div_div by lia. reflexivity.
    + rewrite shr_1_m by assumption. apply Z.div_pos; lia.
Qed.

Lemma shr_fexp_shift m e l :
  0 < m -> -1022 <= e ->
  shr_fexp prec emax m e l = shr (shr_record_of_loc m l) e (Zdigits2 m - 53).
Proof.
  intros Hm He. unfold shr_fexp, fexp, emin, prec, emax. f_equal.
  assert (0 < Zdigits2 m) by (destruct m; simpl; lia). lia.
Qed.

Lemma shr_record_of_loc_m m l : shr_m (shr_record_of_loc m l) = m.
Proof. destruct l as [|[]]; reflexivity. Qed.

Lemma Zdigits2_bounds m : 0 < m -> 2 ^ (Zdigits2 m - 1) <= m < 2 ^ Zdigits2 m.
Proof. destruct m; try lia. intros _. apply digits2_bounds. Qed.

(** the shifted mantissa after shr by digits - 53 *)
Lemma shr_digits m e l r e' :
  0 < m ->
  shr (shr_record_of_loc m l) e (Zdigits2 m - 53) = (r, e') ->
  0 < shr_m r <= m /\ shr_m r < 2 ^ 53 /\ e <= e' /\ e' = e + Z.max 0 (Zdigits2 m - 53)
  /\ (Zdigits2 m <= 53 -> r = shr_record_of_loc m l).
Proof.
  intros Hm. unfold shr. pose proof (Zdigits2_bounds m Hm) as [Hlo Hhi].
  destruct (Zdigits2 m - 53) as [|n|n] eqn:Hn; intros [= <- <-].
  - rewrite shr_record_of_loc_m. replace (Zdigits2 m) with 53 in Hhi by lia.
    repeat split; try reflexivity; lia.
  - rewrite shr_iter_m by (rewrite shr_record_of_loc_m; lia).
    rewrite shr_record_of_loc_m.
    replace (Zdigits2 m) with (53 + Z.pos n) in * by lia.
    rewrite Z.pow_add_r in Hhi by lia.
    replace (53 + Z.pos n - 1) with (52 + Z.pos n) in Hlo by lia.
    rewrite Z.pow_add_r in Hlo by lia.
    assert (0 < 2 ^ Z.pos n) by (apply Z.pow_pos_nonneg; lia).
    assert (2 ^ 52 <= m / 2 ^ Z.pos n) by (apply Z.div_le_lower_bound; lia).
    assert (m / 2 ^ Z.pos n < 2 ^ 53) by (apply Z.div_lt_upper_bound; lia).
    assert (m / 2 ^ Z.pos n <= m) by (apply Z.div_le_upper_bound; nia).
    repeat split; try lia.
  - rewrite shr_record_of_loc_m.
    assert (Zdigits2 m < 53) by lia.
    assert (2 ^ Zdigits2 m <= 2 ^ 53) by (apply Z.pow_le_mono_r; lia).
    repeat split; try reflexivity; lia.
Qed.

Lemma round_nearest_even_bounds m l : m <= round_nearest_even m l <= m + 1.
Proof. destruct l as [|[]]; simpl; try lia. destruct (Z.even m); lia. Qed.

Lemma shr_split r e n : shr r e n = (shr_rec r n, e + Z.max 0 n).
Proof. unfold shr_rec, shr. destruct n; simpl; f_equal; lia. Qed.

Lemma round_m1_bounds m l : 0 < m -> 0 < round_m1 m l <= 2 ^ 53.
Proof.
  intros Hm. unfold round_m1.
  pose proof (shr_digits m 0 l _ _ Hm (shr_split _ _ _)) as (H1 & H2 & _).
  pose proof (round_nearest_even_bounds
    (shr_m (shr_rec (shr_record_of_loc m l) (Zdigits2 m - 53)))
    (loc_of_shr_record (shr_rec (shr_record_of_loc m l) (Zdigits2 m - 53)))).
  lia.
Qed.

Lemma Zdigits2_le m k : 0 < m -> 0 <= k -> m <= 2 ^ k -> Zdigits2 m <= k + 1.
Proof.
  intros Hm Hk Hle. pose proof (Zdigits2_bounds m Hm) as [Hlo _].
  destruct (Z_le_gt_dec (Zdigits2 m) (k + 1)) as [|Hgt]; [assumption|exfalso].
  assert (2 ^ (k + 1) <= 2 ^ (Zdigits2 m - 1)) by (apply Z.pow_le_mono_r; lia).
  rewrite Z.pow_add_r in H by lia. assert (0 < 2 ^ k) by (apply Z.pow_pos_nonneg; lia). lia.
Qed.

Lemma Zdigits2_lt m k : 0 < m -> 0 <= k -> m < 2 ^ k -> Zdigits2 m <= k.
Proof.
  intros Hm Hk Hle. pose proof (Zdigits2_bounds m Hm) as [Hlo _].
  destruct (Z_le_gt_dec (Zdigits2 m) k) as [|Hgt]; [assumption|exfalso].
  assert (2 ^ k <= 2 ^ (Zdigits2 m - 1)) by (apply Z.pow_le_mono_r; lia).
  lia.
Qed.

Lemma round_m_pos m l : 0 < m -> 0 < round_m m l.
Proof.
  intros Hm. unfold round_m.
  pose proof (round_m1_bounds m l Hm) as [H1 _].
  pose proof (shr_digits (round_m1 m l) 0 loc_Exact _ _ H1 (shr_split _ _ _)). lia.
Qed.

Lemma round_d_bounds m l : 0 < m -> 0 <= round_d m l <= Z.max 0 (Zdigits2 m - 53) + 1.
Proof.
  intros Hm. unfold round_d.
  pose proof (round_m1_bounds m l Hm) as [H1 H2].
  pose proof (Zdigits2_le (round_m1 m l) 53 H1 ltac:(lia) H2). lia.
Qed.

(** [binary_round_aux] on a positive mantissa: mantissa and exponent offset
    are those of the mantissa, whatever the exponent. *)
Lemma binary_round_aux_eq s m e l :
  0 < m -> -1022 <= e ->
  binary_round_aux prec emax s m e l =
    if e + round_d m l <=? 971 then S754_finite s (Z.to_pos (round_m m l)) (e + round_d m l)
    else S754_infinity s.
Proof.
  intros Hm He. unfold binary_round_aux.
  rewrite shr_fexp_shift, shr_split by assumption.
  fold (round_m1 m l).
  pose proof (round_m1_bounds m l Hm) as [H1 _].
  rewrite shr_fexp_shift, shr_split by lia.
  fold (round_m m l). pose proof (round_m_pos m l Hm) as Hp.
  unfold round_d. rewrite Z.add_assoc.
  destruct (round_m m l) as [|q|q]; try lia. reflexivity.
Qed.

Lemma digits2_iter_xO p k :
  Z.pos (digits2_pos (Pos.iter xO p k)) = Z.pos (digits2_pos p) + Z.pos k.
Proof.
  induction k as [|k IH] using Pos.peano_ind.
  - simpl. lia.
  - rewrite Pos.iter_succ. simpl. lia.
Qed.

Lemma shl_align_int p :
  shl_align p 0 (fexp prec emax (Z.pos (digits2_pos p) + 0)) =
    match Z.pos (digits2_pos p) - 53 with
    | Z.neg k => (Pos.iter xO p k, Z.pos (digits2_pos p) - 53)
    | _ => (p, 0)
    end.
Proof.
  unfold shl_align, fexp, emin, prec, emax.
  replace (Z.max (Z.pos (digits2_pos p) + 0 - 53) (3 - 1024 - 53) - 0)
    with (Z.pos (digits2_pos p) - 53) by lia.
  destruct (Z.pos (digits2_pos p) - 53) eqn:E; try reflexivity.
  f_equal. lia.
Qed.

(** An integer, aligned for rounding: a positive mantissa of at least 53
    bits and an exponent in [-52, 0]. *)
Lemma binary_round_int s p :
  exists M E, 0 < M /\ -52 <= E <= 0 /\
    Zdigits2 M = Z.max 53 (Z.pos (digits2_pos p)) /\
    binary_round prec emax s p 0 = binary_round_aux prec emax s M E loc_Exact.
Proof.
  unfold binary_round. rewrite shl_align_int.
  destruct (Z.pos (digits2_pos p) - 53) as [|k|k] eqn:E.
  - exists (Z.pos p), 0. cbn [Zdigits2]. repeat split; lia.
  - exists (Z.pos p), 0. cbn [Zdigits2]. repeat split; lia.
  - exists (Z.pos (Pos.iter xO p k)), (Z.neg k).
    cbn [Zdigits2]. rewrite digits2_iter_xO. repeat split; lia.
Qed.

Lemma shr_rec_double p :
  53 <= Z.pos (digits2_pos p) ->
  shr_rec (shr_record_of_loc (Z.pos p~0) loc_Exact) (Zdigits2 (Z.pos p~0) - 53) =
  shr_rec (shr_record_of_loc (Z.pos p) loc_Exact) (Zdigits2 (Z.pos p) - 53).
Proof.
  intros Hd. unfold shr_rec, shr. cbn [Zdigits2 digits2_pos].
  rewrite Pos2Z.inj_succ.
  destruct (Z.pos (digits2_pos p) - 53) as [|n|n] eqn:E; try lia.
  - replace (Z.succ (Z.pos (digits2_pos p)) - 53) with 1 by lia. reflexivity.
  - replace (Z.succ (Z.pos (digits2_pos p)) - 53) with (Z.pos (Pos.succ n)) by lia.
    simpl. rewrite !iter_pos_iter, Pos.iter_succ_r. reflexivity.
Qed.

(** Doubling an integer: the same aligned mantissa, the exponent one up. *)
Lemma binary_round_double s p :
  exists M E, 0 < M /\ -52 <= E <= 0 /\
    Zdigits2 M = Z.max 53 (Z.pos (digits2_pos p)) /\
    binary_round prec emax s p 0 = binary_round_aux prec emax s M E loc_Exact /\
    binary_round prec emax s (xO p) 0 =
      (if E + 1 + round_d M loc_Exact <=? 971
       then S754_finite s (Z.to_pos (round_m M loc_Exact)) (E + 1 + round_d M loc_Exact)
       else S754_infinity s).
Proof.
  unfold binary_round. rewrite !shl_align_int. cbn [digits2_pos].
  rewrite Pos2Z.inj_succ.
  destruct (Z.pos (digits2_pos p) - 53) as [|k|k] eqn:E.
  - exists (Z.pos p), 0. replace (Z.succ (Z.pos (digits2_pos p)) - 53) with 1 by lia.
    cbn [Zdigits2 digits2_pos]. repeat split; try lia.
    rewrite binary_round_aux_eq by lia.
    unfold round_d, round_m, round_m1. rewrite shr_rec_double by lia.
    cbn [Zdigits2 digits2_pos]. rewrite Pos2Z.inj_succ.
    replace (Z.max 0 (Z.succ (Z.pos (digits2_pos p)) - 53))
      with (1 + Z.max 0 (Z.pos (digits2_pos p) - 53)) by lia.
    rewrite !Z.add_assoc. reflexivity.
  - exists (Z.pos p), 0.
    replace (Z.succ (Z.pos (digits2_pos p)) - 53) with (Z.pos (Pos.succ k)) by lia.
    cbn [Zdigits2 digits2_pos]. repeat split; try lia.
    rewrite binary_round_aux_eq by lia.
    unfold round_d, round_m, round_m1. rewrite shr_rec_double by lia.
    cbn [Zdigits2 digits2_pos]. rewrite Pos2Z.inj_succ.
    replace (Z.max 0 (Z.succ (Z.pos (digits2_pos p)) - 53))
      with (1 + Z.max 0 (Z.pos (digits2_pos p) - 53)) by lia.
    rewrite !Z.add_assoc. reflexivity.
  - destruct (Pos.eq_dec k 1%positive) as [->|Hk].
    + exists (Z.pos p~0), (-1).
      replace (Z.succ (Z.pos (digits2_pos p)) - 53) with 0 by lia.
      cbn [Zdigits2 digits2_pos]. rewrite Pos2Z.inj_succ. repeat split; try lia.
      rewrite binary_round_aux_eq by lia. reflexivity.
    + destruct (Pos.succ_pred_or k) as [->|Hs]; [congruence|].
      replace (Z.succ (Z.pos (digits2_pos p)) - 53) with (Z.neg (Pos.pred k)) by lia.
      exists (Z.pos (Pos.iter xO p k)), (Z.neg k).
      cbn [Zdigits2]. rewrite digits2_iter_xO. repeat split; try lia.
      rewrite binary_round_aux_eq by lia.
      replace (Z.neg (Pos.pred k)) with (Z.neg k + 1) by lia.
      assert (Hi : Pos.iter xO p k = Pos.iter xO (xO p) (Pos.pred k))
        by (rewrite <- Hs at 1; apply Pos.iter_succ_r).
      rewrite Hi. reflexivity.
Qed.

Lemma fdiv_fhalf s m e :
  fdiv (S754_finite s m e) (S754_finite s m (e + 1)) = fhalf.
Proof.
  unfold fdiv, SFdiv, SFdiv_core_binary. cbn [Zdigits2].
  replace (Z.pos (digits2_pos m) + e - (Z.pos (digits2_pos m) + (e + 1))) with (-1) by lia.
  replace (e - (e + 1)) with (-1) by lia.
  change (Z.min (fexp prec emax (-1)) (-1)) with (-54).
  change (-1 - -54) with 53.
  cbv beta iota zeta.
  destruct (Z.div_eucl (Z.shiftl (Z.pos m) 53) (Z.pos m)) as [q r] eqn:Hqr.
  assert (Hq : q = 2 ^ 53).
  { change q with (fst (q, r)). rewrite <- Hqr. change (fst (Z.div_eucl ?a ?b)) with (a / b).
    rewrite Z.shiftl_mul_pow2 by lia. rewrite Z.mul_comm. apply Z.div_mul. lia. }
  assert (Hr : r = 0).
  { change r with (snd (q, r)). rewrite <- Hqr. change (snd (Z.div_eucl ?a ?b)) with (a mod b).
    rewrite Z.shiftl_mul_pow2 by lia. rewrite Z.mul_comm. apply Z.mod_mul. lia. }
  subst q r.
  assert (Hl : new_location (Z.pos m) 0 = loc_Exact).
  { unfold new_location. destruct (Z.even (Z.pos m)); reflexivity. }
  rewrite Hl. destruct s; reflexivity.
Qed.

Lemma float_of_double a :
  0 < a < 2 ^ 62 ->
  exists m e, float64_of_int64 a = S754_finite false m e /\
              float64_of_int64 (2 * a) = S754_finite false m (e + 1).
Proof.
  intros [Hlo Hhi]. destruct a as [|p|p]; try lia.
  change (2 * Z.pos p) with (Z.pos (xO p)). unfold float64_of_int64, binary_normalize.
  destruct (binary_round_double false p) as (M & E & HM & HE & Hd & Hp & Hp2).
  assert (Hdp : Z.pos (digits2_pos p) <= 62)
    by (apply (Zdigits2_lt (Z.pos p)); lia).
  pose proof (round_d_bounds M loc_Exact HM) as Hrd.
  rewrite Hp, Hp2. rewrite binary_round_aux_eq by lia.
  replace (E + round_d M loc_Exact <=? 971) with true by (symmetry; apply Z.leb_le; lia).
  replace (E + 1 + round_d M loc_Exact <=? 971) with true by (symmetry; apply Z.leb_le; lia).
  eexists _, _. split; [reflexivity|]. f_equal. lia.
Qed.

Lemma fdiv_of_double a :
  0 < a < 2 ^ 62 -> fdiv (float64_of_int64 a) (float64_of_int64 (2 * a)) = fhalf.
Proof.
  intros Ha. destruct (float_of_double a Ha) as (m & e & -> & ->). apply fdiv_fhalf.
Qed.

Lemma float_of_nonzero a :
  a <> 0 ->
  (exists m e, float64_of_int64 a = S754_finite (a <? 0) m e) \/
  float64_of_int64 a = S754_infinity (a <? 0).
Proof.
  intros Ha. unfold float64_of_int64, binary_normalize.
  destruct a as [|p|p]; try congruence.
  - destruct (binary_round_int false p) as (M & E & HM & HE & _ & ->).
    rewrite binary_round_aux_eq by lia.
    destruct (_ <=? _); [left; eauto | right; reflexivity].
  - destruct (binary_round_int true p) as (M & E & HM & HE & _ & ->).
    rewrite binary_round_aux_eq by lia.
    destruct (_ <=? _); [left; eauto | right; reflexivity].
Qed.

Lemma fdiv_zero_nonzero a :
  a <> 0 -> fdiv (float64_of_int64 0) (float64_of_int64 a) = S754_zero (a <? 0).
Proof.
  intros Ha. destruct (float_of_nonzero a Ha) as [(m & e & ->)| ->]; reflexivity.
Qed.
(** ** Checked [int64] arithmetic *)

Lemma wrap64_spec z : ∃ k, wrap64 z = z - k * 2 ^ 64 ∧ in_int64 (wrap64 z).
Proof.
  unfold wrap64, in_int64, mostNegative, mostPositive.
  exists ((z + 2 ^ 63) / 2 ^ 64).
  pose proof (Z.div_mod (z + 2 ^ 63) (2 ^ 64) ltac:(lia)).
  pose proof (Z.mod_pos_bound (z + 2 ^ 63) (2 ^ 64) ltac:(lia)). lia.
Qed.

Lemma wrap64_in z : in_int64 (wrap64 z).
Proof. by destruct (wrap64_spec z) as (k & _ & H). Qed.

Lemma wrap64_small z : in_int64 z → wrap64 z = z.
Proof.
  unfold wrap64, in_int64, mostNegative, mostPositive. intros H.
  rewrite Z.mod_small; lia.
Qed.

Lemma int64Add_ok a b c :
  in_int64 a → in_int64 b → int64Add a b = (c, true) → c = a + b ∧ in_int64 c.
Proof.
  intros Ha Hb. unfold int64Add.
  destruct (wrap64_spec (a + b)) as (k & Hk & Hin).
  unfold in_int64, mostNegative, mostPositive in *.
  repeat (case_match; try discriminate); intros [= <-];
    repeat match goal with
      | H : (_ && _) = _ |- _ => first [apply andb_true_iff in H as [? ?] | apply andb_false_iff in H as [?|?]]
      | H : (_ <? _) = _ |- _ => first [apply Z.ltb_lt in H | apply Z.ltb_ge in H]
      | H : (_ =? _) = _ |- _ => first [apply Z.eqb_eq in H | apply Z.eqb_neq in H]
      end; lia.
Qed.

Lemma quot_exact c a b k :
  1 < b < 2 ^ 64 → c = a * b - k * 2 ^ 64 → Z.quot c b = a → c = a * b.
Proof.
  intros Hb Hc Hq.
  pose proof (Z.quot_rem' c b) as Hqr. rewrite Hq in Hqr.
  assert (Z.abs (Z.rem c b) < Z.abs b) by (apply Z.rem_bound_abs; lia).
  assert (k = 0) by nia. subst k. lia.
Qed.

Lemma multiplyScale_ok a b c :
  in_int64 a → 1 < b < 2 ^ 63 →
  (if (a =? 0) || (a =? 1) then (wrap64 (a * b), true)
   else let c := wrap64 (a * b) in (c, Z.quot c b =? a)) = (c, true) →
  c = a * b ∧ in_int64 c.
Proof.
  intros Ha Hb. destruct (wrap64_spec (a * b)) as (k & Hk & Hin).
  destruct ((a =? 0) || (a =? 1)) eqn:E.
  - intros [= <-]. split; [|done]. apply wrap64_small.
    apply orb_true_iff in E as [E|E]; apply Z.eqb_eq in E; subst a;
      unfold in_int64, mostNegative, mostPositive; lia.
  - cbv zeta. intros [= <- Hq]. split; [|done]. apply Z.eqb_eq in Hq.
    apply (quot_exact _ a b k); [lia|done|done].
Qed.

Lemma int64MultiplyScale_ok a b c :
  in_int64 a → 1 < b < 2 ^ 63 → int64MultiplyScale a b = (c, true) →
  c = a * b ∧ in_int64 c.
Proof.
  intros Ha Hb. unfold int64MultiplyScale. intros H.
  apply (multiplyScale_ok a b c Ha Hb).
  destruct ((a =? 0) || (a =? 1)); [done|].
  by destruct ((a =? mostNegative) && negb (b =? 1)).
Qed.

Lemma int64MultiplyScale10_ok a c :
  in_int64 a → int64MultiplyScale10 a = (c, true) → c = a * 10 ∧ in_int64 c.
Proof.
  intros Ha. unfold int64MultiplyScale10. intros H.
  apply (multiplyScale_ok a 10 c Ha ltac:(lia)).
  destruct ((a =? 0) || (a =? 1)); [done|]. by destruct (a =? mostNegative).
Qed.

Lemma int64MultiplyScale100_ok a c :
  in_int64 a → int64MultiplyScale100 a = (c, true) → c = a * 100 ∧ in_int64 c.
Proof.
  intros Ha. unfold int64MultiplyScale100. intros H.
  apply (multiplyScale_ok a 100 c Ha ltac:(lia)).
  destruct ((a =? 0) || (a =? 1)); [done|]. by destruct (a =? mostNegative).
Qed.

Lemma int64MultiplyScale1000_ok a c :
  in_int64 a → int64MultiplyScale1000 a = (c, true) → c = a * 1000 ∧ in_int64 c.
Proof.
  intros Ha. unfold int64MultiplyScale1000. intros H.
  apply (multiplyScale_ok a 1000 c Ha ltac:(lia)).
  destruct ((a =? 0) || (a =? 1)); [done|]. by destruct (a =? mostNegative).
Qed.

Lemma scaleLoop_ok n : ∀ v c,
  in_int64 v → scaleLoop n v = (c, true) → c = v * 10 ^ Z.of_nat n ∧ in_int64 c.
Proof.
  induction n as [|n IH]; intros v c Hv; cbn [scaleLoop].
  - intros [= <-]. split; [lia|done].
  - destruct (int64MultiplyScale v 10) as [v' ok] eqn:Hm.
    destruct ok; [|done]. intros H.
    apply int64MultiplyScale_ok in Hm as [-> Hin]; [|done|lia].
    apply IH in H as [-> Hc]; [|done]. split; [|done].
    rewrite Nat2Z.inj_succ, Z.pow_succ_r by lia. lia.
Qed.


(** A failing multiplication by ten means that the product does not fit. *)
Lemma int64MultiplyScale10_fail v c :
  in_int64 v → int64MultiplyScale v 10 = (c, false) → ¬ in_int64 (v * 10).
Proof.
  intros Hv. unfold int64MultiplyScale.
  destruct ((v =? 0) || (v =? 1)); [done|].
  destruct ((v =? mostNegative) && negb (10 =? 1)) eqn:E.
  - intros _. apply andb_true_iff in E as [E _]. apply Z.eqb_eq in E. subst v.
    unfold in_int64, mostNegative, mostPositive. lia.
  - cbv zeta. intros [= <- Hq] Hin. apply Z.eqb_neq in Hq. apply Hq.
    rewrite wrap64_small by done. apply Z.quot_mul. lia.
Qed.

Lemma scaleLoop_overflow n : ∀ v c,
  in_int64 v → scaleLoop n v = (c, false) → ¬ in_int64 (v * 10 ^ Z.of_nat n).
Proof.
  induction n as [|n IH]; intros v c Hv; cbn [scaleLoop]; [done|].
  destruct (int64MultiplyScale v 10) as [v' ok] eqn:Hm. destruct ok.
  - apply int64MultiplyScale_ok in Hm as [-> Hin]; [|done|lia].
    intros H. apply IH in H; [|done].
    rewrite Nat2Z.inj_succ, Z.pow_succ_r by lia.
    by replace (v * (10 * 10 ^ Z.of_nat n)) with (v * 10 * 10 ^ Z.of_nat n) by lia.
  - intros _. apply int64MultiplyScale10_fail in Hm; [|done].
    rewrite Nat2Z.inj_succ, Z.pow_succ_r by lia.
    intros Hin. apply Hm.
    assert (1 <= 10 ^ Z.of_nat n) by (apply Z.lt_pred_le, Z.pow_pos_nonneg; lia).
    unfold in_int64, mostNegative, mostPositive in *. nia.
Qed.

Lemma positiveScaleInt64_cases base sc :
  positiveScaleInt64 base sc =
    if sc =? 0 then (base, true)
    else if sc =? 1 then int64MultiplyScale10 base
    else if sc =? 2 then int64MultiplyScale100 base
    else if sc =? 3 then int64MultiplyScale1000 base
    else if sc =? 6 then int64MultiplyScale base 1000000
    else if sc =? 9 then int64MultiplyScale base 1000000000
    else scaleLoop (Z.to_nat sc) base.
Proof.
  unfold positiveScaleInt64.
  destruct sc as [|p|p]; [done| |done].
  destruct p as [[[[p|p|]|[p|p|]|]|[[p|p|]|[p|p|]|]|]|[[[p|p|]|[p|p|]|]|[[p|p|]|[p|p|]|]|]|]; reflexivity.
Qed.

Lemma positiveScaleInt64_ok base sc c :
  in_int64 base → 0 <= sc → positiveScaleInt64 base sc = (c, true) →
  c = base * 10 ^ sc ∧ in_int64 c.
Proof.
  intros Hb Hsc. rewrite positiveScaleInt64_cases.
  repeat (case_match; [match goal with H : (_ =? _) = true |- _ =>
                         apply Z.eqb_eq in H; subst sc end|]).
  - intros [= <-]. split; [lia|done].
  - intros Hp. by apply int64MultiplyScale10_ok in Hp.
  - intros Hp. by apply int64MultiplyScale100_ok in Hp.
  - intros Hp. by apply int64MultiplyScale1000_ok in Hp.
  - intros Hp. apply int64MultiplyScale_ok in Hp; [done|done|lia].
  - intros Hp. apply int64MultiplyScale_ok in Hp; [done|done|lia].
  - intros Hp. apply scaleLoop_ok in Hp; [|done]. by rewrite Z2Nat.id in Hp.
Qed.

(** ** The value of a quantity under [Add] and [AsInt64] *)

Section QuantityValue.

Local Open Scope Q_scope.

Lemma pow10_add a b : pow10 (a + b) == pow10 a * pow10 b.
Proof. unfold pow10. apply Qpower_plus. discriminate. Qed.

Lemma pow10_nonneg z : (0 <= z)%Z → pow10 z == inject_Z (10 ^ z).
Proof. intros Hz. unfold pow10. symmetry. by apply Zpower_Qpower. Qed.

Lemma pow10_scale v s k :
  (0 <= k)%Z → inject_Z (v * 10 ^ k) * pow10 s == inject_Z v * pow10 (k + s).
Proof.
  intros Hk. rewrite pow10_add, inject_Z_mult, (pow10_nonneg k) by done. ring.
Qed.

Lemma amount_Add_ok a b c :
  in_int64 (value a) → in_int64 (value b) →
  int64Amount.Add a b = Some c →
  amountValue c == amountValue a + amountValue b ∧ in_int64 (value c).
Proof.
  intros Ha Hb. unfold int64Amount.Add, amountValue.
  destruct (value b =? 0)%Z eqn:Eb.
  { apply Z.eqb_eq in Eb. intros [= <-]. rewrite Eb. split; [ring|done]. }
  destruct (value a =? 0)%Z eqn:Ea.
  { apply Z.eqb_eq in Ea. intros [= <-]. rewrite Ea. simpl. split; [ring|done]. }
  destruct (scale a =? scale b)%Z eqn:Es.
  { apply Z.eqb_eq in Es. destruct (int64Add _ _) as [s ok] eqn:Hadd.
    destruct ok; [|done]. intros [= <-]. simpl.
    apply int64Add_ok in Hadd as [-> Hin]; [|done..].
    rewrite inject_Z_plus, Es. split; [ring|done]. }
  apply Z.eqb_neq in Es.
  destruct (scale b <? scale a)%Z eqn:El.
  - apply Z.ltb_lt in El.
    destruct (positiveScaleInt64 _ _) as [p ok] eqn:Hp. destruct ok; [|done].
    apply positiveScaleInt64_ok in Hp as [-> Hin]; [|done|lia].
    destruct (int64Add _ _) as [s ok] eqn:Hadd. destruct ok; [|done].
    intros [= <-]. simpl. apply int64Add_ok in Hadd as [-> Hin']; [|done..].
    split; [|done]. rewrite inject_Z_plus, Qmult_plus_distr_l.
    rewrite pow10_scale by lia.
    by replace (scale a - scale b + scale b)%Z with (scale a) by lia.
  - apply Z.ltb_ge in El.
    destruct (positiveScaleInt64 _ _) as [p ok] eqn:Hp. destruct ok; [|done].
    apply positiveScaleInt64_ok in Hp as [-> Hin]; [|done|lia].
    destruct (int64Add _ _) as [s ok] eqn:Hadd. destruct ok; [|done].
    intros [= <-]. simpl. apply int64Add_ok in Hadd as [-> Hin']; [|done..].
    split; [|done]. rewrite inject_Z_plus, Qmult_plus_distr_l.
    rewrite pow10_scale by lia.
    by replace (scale b - scale a + scale a)%Z with (scale b) by lia.
Qed.

Lemma dec_rescale_up x s :
  (dscale x <= s)%Z → decValue (Dec.rescale x s) == decValue x.
Proof.
  intros Hs. unfold Dec.rescale, decValue.
  destruct (s - dscale x <? 0)%Z eqn:E1; [apply Z.ltb_lt in E1; lia|].
  destruct (0 <? s - dscale x)%Z eqn:E2; [|done]. simpl.
  rewrite pow10_scale by lia.
  by replace (s - dscale x + - s)%Z with (- dscale x)%Z by lia.
Qed.

Lemma dec_rescale_scale x s : (dscale x <= s)%Z → dscale (Dec.rescale x s) = s.
Proof.
  intros Hs. unfold Dec.rescale.
  destruct (s - dscale x <? 0)%Z eqn:E1; [done|].
  destruct (0 <? s - dscale x)%Z eqn:E2; [done|].
  apply Z.ltb_ge in E1, E2. lia.
Qed.

Lemma dec_Add_ok x y : decValue (Dec.Add x y) == decValue x + decValue y.
Proof.
  unfold Dec.Add.
  destruct (dscale x =? dscale y)%Z eqn:E.
  { apply Z.eqb_eq in E. unfold decValue. simpl. rewrite inject_Z_plus, E. ring. }
  destruct (dscale y <? dscale x)%Z eqn:El.
  - apply Z.ltb_lt in El.
    rewrite <- (dec_rescale_up y (dscale x)) by lia.
    unfold decValue at 1 2 3. simpl.
    rewrite dec_rescale_scale by lia. rewrite inject_Z_plus. ring.
  - apply Z.ltb_ge in El. apply Z.eqb_neq in E.
    rewrite <- (dec_rescale_up x (dscale y)) by lia.
    unfold decValue at 1 2 3. simpl.
    rewrite dec_rescale_scale by lia. rewrite inject_Z_plus. ring.
Qed.

Lemma Quantity_AsDec_value q : decValue (Quantity.AsDec q) == Qvalue q.
Proof.
  unfold Quantity.AsDec, Qvalue. destruct (d q); [done|].
  unfold int64Amount.AsDec, decValue, amountValue. simpl.
  by rewrite Z.opp_involutive.
Qed.

(** [Quantity.Add] adds exactly, in either form. *)
Lemma Quantity_Add_ok q y :
  wfQuantity q → wfQuantity y →
  Qvalue (Quantity.Add q y) == Qvalue q + Qvalue y ∧ wfQuantity (Quantity.Add q y).
Proof.
  intros Hq Hy.
  assert (Hslow : ∀ z, z = mkQuantity (mkInt64Amount 0 0) (Some (Dec.Add (Quantity.AsDec q) (Quantity.AsDec y))) →
            Qvalue z == Qvalue q + Qvalue y ∧ wfQuantity z).
  { intros z ->. split; [|by vm_compute].
    unfold Qvalue at 1. simpl. by rewrite dec_Add_ok, !Quantity_AsDec_value. }
  unfold Quantity.Add.
  destruct (d q) eqn:Hdq; [by apply Hslow|].
  destruct (d y) eqn:Hdy; [by apply Hslow|].
  destruct (int64Amount.Add (i q) (i y)) as [a|] eqn:Ha;
    [|by apply Hslow].
  apply amount_Add_ok in Ha as [Hv Hin]; [|done..].
  split; [|done]. unfold Qvalue. simpl. by rewrite Hdq, Hdy.
Qed.

(** A successful [AsInt64] returns the value of the quantity. *)
Lemma Quantity_AsInt64_ok q a :
  wfQuantity q → Quantity.AsInt64 q = (a, true) →
  Qvalue q == inject_Z a ∧ in_int64 a.
Proof.
  intros Hq. unfold Quantity.AsInt64, Qvalue, int64Amount.AsInt64, amountValue.
  destruct (d q); [done|].
  destruct (scale (i q) =? 0)%Z eqn:E0.
  { apply Z.eqb_eq in E0. intros [= <-]. rewrite E0. split; [|done].
    unfold pow10. simpl. ring. }
  destruct (scale (i q) <? 0)%Z eqn:El; [done|].
  apply Z.ltb_ge in El. intros Hp.
  apply positiveScaleInt64_ok in Hp as [-> Hin]; [|done|done].
  split; [|done]. rewrite inject_Z_mult, pow10_nonneg by done. ring.
Qed.

Lemma rangeContainers_value containers : ∀ acc,
  Forall wfContainer containers → wfQuantity acc.1 → wfQuantity acc.2 →
  Qvalue (rangeContainers containers acc).1 ==
    Qvalue acc.1 + Qsum (map (fun c => Cpu (Requests (Resources c))) containers) ∧
  Qvalue (rangeContainers containers acc).2 ==
    Qvalue acc.2 + Qsum (map (fun c => Memory (Requests (Resources c))) containers) ∧
  wfQuantity (rangeContainers containers acc).1 ∧
  wfQuantity (rangeContainers containers acc).2.
Proof.
  unfold rangeContainers.
  induction containers as [|c cs IH]; intros [cpu mem] Hwf Hc Hm; simpl in *.
  - split_and!; try done; ring.
  - apply Forall_cons in Hwf as [[Hwc Hwm] Hwf].
    destruct (Quantity_Add_ok cpu _ Hc Hwc) as [Ec Wc].
    destruct (Quantity_Add_ok mem _ Hm Hwm) as [Em Wm].
    destruct (IH (_, _) Hwf Wc Wm) as (E1 & E2 & W1 & W2).
    split_and!; try done.
    + rewrite E1. simpl. rewrite Ec. ring.
    + rewrite E2. simpl. rewrite Em. ring.
Qed.

Lemma Qsum_app l1 l2 : Qsum (l1 ++ l2) == Qsum l1 + Qsum l2.
Proof. induction l1 as [|q l1 IH]; simpl; [ring|]. rewrite IH. ring. Qed.

Lemma sumRequests_value pods : ∀ acc,
  Forall wfObject pods → wfQuantity acc.1 → wfQuantity acc.2 →
  Qvalue (sumRequests pods acc).1 == Qvalue acc.1 + cpuRequests pods ∧
  Qvalue (sumRequests pods acc).2 == Qvalue acc.2 + memRequests pods ∧
  wfQuantity (sumRequests pods acc).1 ∧
  wfQuantity (sumRequests pods acc).2.
Proof.
  unfold sumRequests, cpuRequests, memRequests.
  induction pods as [|[pod|typ] pods IH]; intros acc Hwf Hc Hm; simpl.
  - split_and!; try done; ring.
  - apply Forall_cons in Hwf as [Hp Hwf].
    destruct (rangeContainers_value _ acc Hp Hc Hm) as (E1 & E2 & W1 & W2).
    destruct (IH _ Hwf W1 W2) as (F1 & F2 & V1 & V2).
    split_and!; try done.
    + rewrite F1, E1, map_app, Qsum_app. ring.
    + rewrite F2, E2, map_app, Qsum_app. ring.
  - apply Forall_cons in Hwf as [_ Hwf]. by apply IH.
Qed.

(** The totals that [GroupPriority] converts are the exact sums of the
    requests whenever the conversion succeeds. *)
Lemma requested_exact pods cpuRequested memRequested :
  Forall wfObject pods →
  Quantity.AsInt64 (sumRequests pods (zero, zero)).1 = (cpuRequested, true) →
  Quantity.AsInt64 (sumRequests pods (zero, zero)).2 = (memRequested, true) →
  inject_Z cpuRequested == cpuRequests pods ∧ inject_Z memRequested == memRequests pods.
Proof.
  intros Hwf Hc Hm.
  destruct (sumRequests_value pods (zero, zero) Hwf) as (E1 & E2 & W1 & W2);
    [by vm_compute..|].
  apply Quantity_AsInt64_ok in Hc as [Hc _]; [|done].
  apply Quantity_AsInt64_ok in Hm as [Hm _]; [|done].
  rewrite <- Hc, <- Hm, E1, E2.
  assert (Hz : Qvalue zero == 0) by reflexivity.
  simpl. rewrite Hz. split; ring.
Qed.

End QuantityValue.
(** ** The index key function *)

Lemma length_zero_iff_empty (s : string) : (String.length s =? 0)%nat = true ↔ s = "".
Proof. destruct s; simpl; split; intros H; done. Qed.

Lemma indexByPodNodeName_pod pod :
  indexByPodNodeName (ObjPod pod) =
    if decide (active pod) then ([NodeName (Spec pod)], None) else ([], None).
Proof.
  unfold indexByPodNodeName, active.
  destruct (String.length _ =? 0)%nat eqn:Hn; simpl.
  { apply length_zero_iff_empty in Hn. case_decide as Ha; [by destruct Ha | done]. }
  destruct (String.eqb (Phase _) PodSucceeded) eqn:Hs; simpl.
  { apply String.eqb_eq in Hs. case_decide as Ha; [by destruct Ha as (_ & ? & _) | done]. }
  destruct (String.eqb (Phase _) PodFailed) eqn:Hf; simpl.
  { apply String.eqb_eq in Hf. case_decide as Ha; [by destruct Ha as (_ & _ & ?) | done]. }
  apply String.eqb_neq in Hs, Hf.
  assert (NodeName (Spec pod) ≠ "") by (intros E; apply length_zero_iff_empty in E; congruence).
  case_decide as Ha; [done | by destruct Ha].
Qed.

(** C2: the key function files an object under a key exactly when the
    object is an active pod and the key is the name of its node; it never
    returns an error, and returns no keys for any other object. *)
Theorem indexByPodNodeName_keys (obj : object) (key : string) :
  (key ∈ (indexByPodNodeName obj).1 ↔
     ∃ pod, obj = ObjPod pod ∧ active pod ∧ key = NodeName (Spec pod)) ∧
  (indexByPodNodeName obj).2 = None ∧
  ((¬ ∃ pod, obj = ObjPod pod ∧ active pod) → indexByPodNodeName obj = ([], None)).
Proof.
  destruct obj as [pod|typ].
  - rewrite indexByPodNodeName_pod. case_decide as Ha; simpl.
    + split; [|split; [done|]].
      * rewrite list_elem_of_singleton. split.
        -- intros ->. by exists pod.
        -- by intros (pod' & [= <-] & _ & ->).
      * intros Hn. destruct Hn. eauto.
    + split; [|done]. rewrite elem_of_nil. split; [done|].
      by intros (pod' & [= <-] & Ha' & _).
  - simpl. split; [|done]. rewrite elem_of_nil. split; [done|].
    by intros (pod' & [=] & _).
Qed.

(** ** The predicate and the bind handler *)

(** C6: [always_true] answers (true, nil) for every pod and node, whatever
    the cache holds, and touches nothing. *)
Theorem TruePredicate_always (pod : Pod) (node : Node) (w : World) :
  TruePredicate pod node w = ((true, None), w).
Proof. reflexivity. Qed.

(** C7: the bind handler answers every request with the same non-nil
    error, which says that bind is not supported, and leaves the state as
    it found it. *)
Theorem NoBind_always_fails (podName podNamespace podUID node : string) (w : World) :
  NoBind podName podNamespace podUID node w =
    (Some (Errorf "This extender doesn't support Bind.  Please make 'BindVerb' be empty in your ExtenderConfig."), w)
  ∧ is_Some (NoBind podName podNamespace podUID node w).1
  ∧ (NoBind podName podNamespace podUID node w).2 = w.
Proof. repeat split. by eexists. Qed.

(** ** The shape of the priority list *)

(** C5: one entry per node, in the order of the nodes, each with the name
    of its node. *)
Theorem GroupPriority_hosts indefinite (pod : Pod) (nodes : list Node) (w : World) :
  map Host (GroupPriority indefinite pod nodes w).1.1 = map (fun node => Name (NodeMeta node)) nodes
  ∧ length (GroupPriority indefinite pod nodes w).1.1 = length nodes
  ∧ ∀ (i : nat) node, nodes !! i = Some node →
      Host <$> (GroupPriority indefinite pod nodes w).1.1 !! i = Some (Name (NodeMeta node)).
Proof.
  rewrite GroupPriority_run. simpl. split; [|split].
  - by rewrite map_map.
  - by rewrite length_map.
  - intros i node Hi. by rewrite list_lookup_fmap, Hi.
Qed.

(** C8: the pod that is being scheduled has no influence on the result. *)
Theorem GroupPriority_ignores_pod indefinite (pod1 pod2 : Pod) (nodes : list Node) (w : World) :
  GroupPriority indefinite pod1 nodes w = GroupPriority indefinite pod2 nodes w.
Proof. by rewrite !GroupPriority_run. Qed.

(** C9: the error result is nil for every pod, node list and cache, also
    one whose every lookup fails. *)
Theorem GroupPriority_no_error indefinite (pod : Pod) (nodes : list Node) (w : World) :
  (GroupPriority indefinite pod nodes w).1.2 = None.
Proof. by rewrite GroupPriority_run. Qed.

Lemma GroupPriority_lookup indefinite pod nodes w (i : nat) node :
  nodes !! i = Some node →
  (GroupPriority indefinite pod nodes w).1.1 !! i =
    Some (nodeEntry indefinite (indexer w) node).
Proof.
  intros Hi. rewrite GroupPriority_run. simpl.
  change (map ?f ?l) with (f <$> l). by rewrite list_lookup_fmap, Hi.
Qed.

(** C4: a node without the label group=Scale scores 1000, whatever the
    cache holds. *)
Theorem GroupPriority_unlabelled indefinite (pod : Pod) (nodes : list Node) (w : World)
    (i : nat) (node : Node) :
  nodes !! i = Some node →
  Labels (NodeMeta node) !! "group" ≠ Some "Scale" →
  (GroupPriority indefinite pod nodes w).1.1 !! i =
    Some (mkHostPriority (Name (NodeMeta node)) 1000).
Proof.
  intros Hi Hl. rewrite (GroupPriority_lookup _ _ _ _ _ _ Hi).
  unfold nodeEntry, nodeScore, hasScaleLabel. by case_decide.
Qed.

Lemma GroupPriority_unlabelled_witness :
  [Sample.n1; Sample.n3] !! 1%nat = Some Sample.n3 ∧
  Labels (NodeMeta Sample.n3) !! "group" ≠ Some "Scale" ∧
  (GroupPriority amd64 Sample.p1 [Sample.n1; Sample.n3] Sample.world).1.1 !! 1%nat =
    Some (mkHostPriority "n3" 1000).
Proof.
  split; [reflexivity|]. split; [by vm_compute|].
  apply (GroupPriority_unlabelled amd64 Sample.p1 [Sample.n1; Sample.n3] Sample.world 1 Sample.n3);
    [reflexivity | by vm_compute].
Defined.

Lemma nodeScore_agree indefinite name idx idx' node :
  agreeExcept name idx idx' → Name (NodeMeta node) ≠ name →
  nodeScore indefinite idx' node = nodeScore indefinite idx node.
Proof.
  intros Ha Hn. unfold nodeScore. case_decide; [|done]. by rewrite Ha.
Qed.

(** C3: when the lookup for a labelled node fails, that node scores 0, the
    call still returns the whole list and no error, and every node of
    another name scores what it scores with a cache that differs only in
    the lookup that failed. *)
Theorem GroupPriority_lookup_failure indefinite (pod : Pod) (nodes : list Node) (w : World)
    (i : nat) (node : Node) :
  nodes !! i = Some node →
  hasScaleLabel node →
  is_Some (ByIndex (indexer w) "node" (Name (NodeMeta node))).2 →
  (GroupPriority indefinite pod nodes w).1.1 !! i = Some (mkHostPriority (Name (NodeMeta node)) 0)
  ∧ (GroupPriority indefinite pod nodes w).1.2 = None
  ∧ length (GroupPriority indefinite pod nodes w).1.1 = length nodes
  ∧ ∀ (w' : World) (j : nat) (other : Node),
      agreeExcept (Name (NodeMeta node)) (indexer w) (indexer w') →
      nodes !! j = Some other →
      Name (NodeMeta other) ≠ Name (NodeMeta node) →
      (GroupPriority indefinite pod nodes w).1.1 !! j =
      (GroupPriority indefinite pod nodes w').1.1 !! j.
Proof.
  intros Hi Hl [err Herr]. split; [|split; [|split]].
  - rewrite (GroupPriority_lookup _ _ _ _ _ _ Hi).
    unfold nodeEntry, nodeScore. case_decide; [|done].
    destruct (ByIndex _ _ _) as [pods o]; simpl in Herr. by subst o.
  - by rewrite GroupPriority_run.
  - rewrite GroupPriority_run; simpl. by rewrite length_map.
  - intros w' j other Ha Hj Hn.
    rewrite !(GroupPriority_lookup _ _ _ _ _ _ Hj). unfold nodeEntry.
    by rewrite (nodeScore_agree _ _ _ _ _ Ha Hn).
Qed.

(** ** The score of a labelled node *)

Lemma int64_of_float64_zero indefinite s :
  int64_of_float64 indefinite (S754_zero s) = 0.
Proof. reflexivity. Qed.

Lemma ratioScore_zero indefinite cpuCapacity memCapacity :
  cpuCapacity ≠ 0 → memCapacity ≠ 0 →
  int64_of_float64 indefinite (ratioScore 0 cpuCapacity 0 memCapacity) = 0.
Proof.
  intros Hc Hm. unfold ratioScore.
  rewrite !fdiv_zero_nonzero by done.
  by destruct (cpuCapacity <? 0), (memCapacity <? 0).
Qed.

Lemma ratioScore_half indefinite cpuRequested memRequested :
  0 < cpuRequested < 2 ^ 62 → 0 < memRequested < 2 ^ 62 →
  int64_of_float64 indefinite
    (ratioScore cpuRequested (2 * cpuRequested) memRequested (2 * memRequested)) = 100.
Proof.
  intros Hc Hm. unfold ratioScore. by rewrite !fdiv_of_double.
Qed.

Lemma nodeScore_labelled indefinite idx node pods
    cpuRequested memRequested cpuCapacity memCapacity :
  hasScaleLabel node →
  ByIndex idx "node" (Name (NodeMeta node)) = (pods, None) →
  Quantity.AsInt64 (sumRequests pods (zero, zero)).1 = (cpuRequested, true) →
  Quantity.AsInt64 (sumRequests pods (zero, zero)).2 = (memRequested, true) →
  Quantity.AsInt64 (Cpu (Capacity (NodeStat node))) = (cpuCapacity, true) →
  Quantity.AsInt64 (Memory (Capacity (NodeStat node))) = (memCapacity, true) →
  nodeScore indefinite idx node =
    int64_of_float64 indefinite
      (ratioScore cpuRequested cpuCapacity memRequested memCapacity).
Proof.
  intros Hl Hidx Hc Hm Hnc Hnm. unfold nodeScore.
  case_decide; [|done]. rewrite Hidx.
  destruct (sumRequests pods (zero, zero)) as [cpu mem]. simpl in Hc, Hm.
  unfold utilization, toFloat. by rewrite Hc, Hm, Hnc, Hnm.
Qed.

(** C1, as the code has it: for a node labelled group=Scale whose lookup
    succeeds and whose totals and capacities [AsInt64] converts, with both
    capacities other than zero, the score is the expression
    (cpuRequested/cpuCapacity + memRequested/memCapacity) * 100 evaluated in
    [float64] and converted to [int64]; the two totals are the exact sums
    of the requests of the containers of the indexed pods; without indexed
    pods the score is 0; and at half of either capacity it is 100. *)
Theorem GroupPriority_labelled indefinite (pod : Pod) (nodes : list Node) (w : World)
    (i : nat) (node : Node) (pods : list object)
    (cpuRequested memRequested cpuCapacity memCapacity : Z) :
  nodes !! i = Some node →
  hasScaleLabel node →
  ByIndex (indexer w) "node" (Name (NodeMeta node)) = (pods, None) →
  Quantity.AsInt64 (sumRequests pods (zero, zero)).1 = (cpuRequested, true) →
  Quantity.AsInt64 (sumRequests pods (zero, zero)).2 = (memRequested, true) →
  Quantity.AsInt64 (Cpu (Capacity (NodeStat node))) = (cpuCapacity, true) →
  Quantity.AsInt64 (Memory (Capacity (NodeStat node))) = (memCapacity, true) →
  cpuCapacity ≠ 0 → memCapacity ≠ 0 →
  (GroupPriority indefinite pod nodes w).1.1 !! i =
    Some (mkHostPriority (Name (NodeMeta node))
            (int64_of_float64 indefinite
               (ratioScore cpuRequested cpuCapacity memRequested memCapacity)))
  ∧ (Forall wfObject pods →
       (inject_Z cpuRequested == cpuRequests pods)%Q ∧
       (inject_Z memRequested == memRequests pods)%Q)
  ∧ (pods = [] →
       (GroupPriority indefinite pod nodes w).1.1 !! i =
         Some (mkHostPriority (Name (NodeMeta node)) 0))
  ∧ (0 < cpuRequested → 0 < memRequested →
     in_int64 cpuCapacity → in_int64 memCapacity →
     cpuCapacity = 2 * cpuRequested → memCapacity = 2 * memRequested →
       (GroupPriority indefinite pod nodes w).1.1 !! i =
         Some (mkHostPriority (Name (NodeMeta node)) 100)).
Proof.
  intros Hi Hl Hidx Hc Hm Hnc Hnm Hc0 Hm0.
  rewrite (GroupPriority_lookup _ _ _ _ _ _ Hi). unfold nodeEntry.
  rewrite (nodeScore_labelled _ _ _ _ _ _ _ _ Hl Hidx Hc Hm Hnc Hnm).
  split_and!.
  - done.
  - intros Hwf. by apply requested_exact.
  - intros ->. simpl in Hc, Hm. injection Hc as <-. injection Hm as <-.
    by rewrite ratioScore_zero.
  - intros Hcp Hmp Hci Hmi -> ->. rewrite ratioScore_half; [done|..];
      unfold in_int64, mostNegative, mostPositive in *; lia.
Qed.

(** The scenario of the design document: n1 has 4 CPU and 8Gi, and two
    pods of 1 CPU and 1Gi each; (2/4 + 2/8) * 100 = 75. *)
Lemma GroupPriority_labelled_witness :
  ([Sample.n1] !! 0%nat = Some Sample.n1 ∧
   hasScaleLabel Sample.n1 ∧
   ByIndex (indexer Sample.world) "node" "n1" = ([ObjPod Sample.p1; ObjPod Sample.p2], None) ∧
   Quantity.AsInt64 (sumRequests [ObjPod Sample.p1; ObjPod Sample.p2] (zero, zero)).1 = (2, true) ∧
   Quantity.AsInt64 (sumRequests [ObjPod Sample.p1; ObjPod Sample.p2] (zero, zero)).2 = (2147483648, true) ∧
   Quantity.AsInt64 (Cpu (Capacity (NodeStat Sample.n1))) = (4, true) ∧
   Quantity.AsInt64 (Memory (Capacity (NodeStat Sample.n1))) = (8589934592, true) ∧
   4 ≠ 0 ∧ 8589934592 ≠ 0) ∧
  (GroupPriority amd64 Sample.p3 [Sample.n1] Sample.world).1.1 !! 0%nat =
    Some (mkHostPriority "n1" 75).
Proof.
  split; [by vm_compute|].
  destruct (GroupPriority_labelled amd64 Sample.p3 [Sample.n1] Sample.world 0 Sample.n1
              [ObjPod Sample.p1; ObjPod Sample.p2] 2 2147483648 4 8589934592)
    as [H _]; [by vm_compute..|].
  rewrite H. reflexivity.
Defined.

(** C1 as stated fails on a labelled node that reports no capacity: every
    conversion succeeds and no pod is indexed, yet the score is the
    conversion of 0/0 + 0/0, which on amd64 is the most negative [int64],
    not 0. *)
Lemma GroupPriority_labelled_counterexample :
  [Sample.bare] !! 0%nat = Some Sample.bare ∧
  hasScaleLabel Sample.bare ∧
  ByIndex (indexer Sample.world) "node" "bare" = ([], None) ∧
  Quantity.AsInt64 (sumRequests [] (zero, zero)).1 = (0, true) ∧
  Quantity.AsInt64 (sumRequests [] (zero, zero)).2 = (0, true) ∧
  Quantity.AsInt64 (Cpu (Capacity (NodeStat Sample.bare))) = (0, true) ∧
  Quantity.AsInt64 (Memory (Capacity (NodeStat Sample.bare))) = (0, true) ∧
  ratioScore 0 0 0 0 = S754_nan ∧
  (GroupPriority amd64 Sample.p3 [Sample.bare] Sample.world).1.1 !! 0%nat =
    Some (mkHostPriority "bare" (-9223372036854775808)) ∧
  (GroupPriority amd64 Sample.p3 [Sample.bare] Sample.world).1.1 !! 0%nat ≠
    Some (mkHostPriority "bare" 0).
Proof. by vm_compute. Qed.

(** The expression is evaluated in [float64]: 29 of 100 CPU and no memory
    request score 28, where the expression on the rationals gives 29; the
    half and half case scores 100 on a concrete node as well. *)
Example GroupPriority_rounding :
  (GroupPriority amd64 Sample.p3 [Sample.n5; Sample.n4] Sample.world).1.1 =
    [mkHostPriority "n5" 28; mkHostPriority "n4" 100] ∧
  exactScore 29 100 0 8589934592 = 29.
Proof. by vm_compute. Qed.

Lemma GroupPriority_lookup_failure_witness :
  ([Sample.n1; Sample.n2] !! 0%nat = Some Sample.n1 ∧
   hasScaleLabel Sample.n1 ∧
   is_Some (ByIndex brokenIndexer "node" "n1").2) ∧
  (GroupPriority amd64 Sample.p3 [Sample.n1; Sample.n2] (mkWorld brokenIndexer [])).1.1 !! 0%nat =
    Some (mkHostPriority "n1" 0).
Proof.
  split; [split_and!; [done | by vm_compute | by eexists]|].
  apply (GroupPriority_lookup_failure amd64 Sample.p3 [Sample.n1; Sample.n2]
           (mkWorld brokenIndexer []) 0 Sample.n1);
    [done | by vm_compute | by eexists].
Defined.

(** ** [toFloat] *)

Lemma float64_of_int64_zero : float64_of_int64 0 = S754_zero false.
Proof. reflexivity. Qed.



Lemma toFloat_slow_path q :
  is_Some (d q) ∨ scale (i q) < 0 → toFloat q = S754_zero false.
Proof.
  unfold toFloat, Quantity.AsInt64, int64Amount.AsInt64.
  intros [[x ->]|Hs]; [done|]. destruct (d q); [done|].
  destruct (scale (i q) =? 0) eqn:E0; [apply Z.eqb_eq in E0; lia|].
  destruct (scale (i q) <? 0) eqn:El; [done|]. apply Z.ltb_ge in El. lia.
Qed.






(** Quantities that [toFloat] turns into 0: 250m, 1000m (one whole unit),
    the sum of 500m and 500m, and the sum of 1 and 250m. *)
Example toFloat_milli :
  toFloat (Sample.milli 250) = S754_zero false ∧
  toFloat (Sample.milli 1000) = S754_zero false ∧
  toFloat (Quantity.Add (Quantity.Add zero (Sample.milli 500)) (Sample.milli 500)) = S754_zero false ∧
  toFloat (Quantity.Add (Quantity.Add zero (Sample.units 1)) (Sample.milli 250)) = S754_zero false ∧
  toFloat (Sample.units 3) = float64_of_int64 3.
Proof. by vm_compute. Qed.

(** ** How calls of [GroupPriority] compose *)

Lemma indexer_logAppend w l : indexer (logAppend w l) = indexer w.
Proof. reflexivity. Qed.

(** X1: scoring [nodes1 ++ nodes2] in one call gives the list and the
    final state of scoring [nodes1] and then [nodes2] in the state the
    first call leaves; in particular an empty node list gives an empty
    list and leaves the state alone. *)
Theorem GroupPriority_app indefinite (pod pod1 pod2 : Pod) (nodes1 nodes2 : list Node) (w : World) :
  GroupPriority indefinite pod (nodes1 ++ nodes2) w =
    (let '((r1, _), w1) := GroupPriority indefinite pod1 nodes1 w in
     let '((r2, _), w2) := GroupPriority indefinite pod2 nodes2 w1 in
     ((r1 ++ r2, None), w2))
  ∧ GroupPriority indefinite pod [] w = (([], None), w).
Proof.
  rewrite !GroupPriority_run. split.
  - rewrite !indexer_logAppend, logAppend_app.
    by rewrite map_app, flat_map_app.
  - simpl. by rewrite logAppend_nil.
Qed.

(** ** What a call writes to the log *)

Lemma scoresLogged_notPodLog pods : scoresLogged (notPodLog pods) = [].
Proof. induction pods as [|[pod|typ] pods IH]; simpl; done. Qed.

Lemma errorsLogged_notPodLog pods : errorsLogged (notPodLog pods) = [].
Proof. induction pods as [|[pod|typ] pods IH]; simpl; done. Qed.

Lemma nodeLog_scores indefinite idx node :
  scoresLogged (nodeLog indefinite idx node) =
    match lookupError idx node with
    | Some _ => []
    | None => [(Name (NodeMeta node), nodeScore indefinite idx node)]
    end.
Proof.
  unfold nodeLog, lookupError.
  case_decide; [|unfold nodeScore; by rewrite decide_False].
  destruct (ByIndex idx "node" (Name (NodeMeta node))) as [pods [err|]]; simpl; [done|].
  unfold scoresLogged. rewrite omap_app. fold (scoresLogged (notPodLog pods)).
  by rewrite scoresLogged_notPodLog.
Qed.

Lemma nodeLog_errors indefinite idx node :
  errorsLogged (nodeLog indefinite idx node) =
    match lookupError idx node with
    | Some err => [err]
    | None => []
    end.
Proof.
  unfold nodeLog, lookupError. case_decide; [|done].
  destruct (ByIndex idx "node" (Name (NodeMeta node))) as [pods [err|]]; simpl; [done|].
  unfold errorsLogged. rewrite omap_app. fold (errorsLogged (notPodLog pods)).
  by rewrite errorsLogged_notPodLog.
Qed.

(** X2: a call only reads the cache and only appends to the log.  The
    score lines it appends are, in node order, the returned (host, score)
    of every node whose lookup did not fail; a node whose lookup fails gets
    its error logged and no score line. *)
Theorem GroupPriority_log indefinite (pod : Pod) (nodes : list Node) (w : World) :
  let '((r, _), w') := GroupPriority indefinite pod nodes w in
  indexer w' = indexer w ∧
  ∃ new, logged w' = logged w ++ new ∧
    scoresLogged new =
      omap (fun '(node, hp) =>
              match lookupError (indexer w) node with
              | Some _ => None
              | None => Some (Host hp, Score hp)
              end) (zip nodes r) ∧
    errorsLogged new = omap (lookupError (indexer w)) nodes.
Proof.
  rewrite GroupPriority_run. split; [done|].
  exists (flat_map (nodeLog indefinite (indexer w)) nodes). split; [done|].
  induction nodes as [|node nodes [IH1 IH2]]; [done|]. simpl.
  unfold scoresLogged, errorsLogged in *. rewrite !omap_app.
  fold (scoresLogged (nodeLog indefinite (indexer w) node)).
  fold (errorsLogged (nodeLog indefinite (indexer w) node)).
  rewrite nodeLog_scores, nodeLog_errors, IH1, IH2.
  by destruct (lookupError (indexer w) node).
Qed.

(** ** Objects that add nothing to the totals *)

Lemma sumRequests_app pods1 pods2 acc :
  sumRequests (pods1 ++ pods2) acc = sumRequests pods2 (sumRequests pods1 acc).
Proof. unfold sumRequests. by rewrite foldl_app. Qed.

Lemma sumRequests_filter_isPod pods : ∀ acc,
  sumRequests (filter isPod pods) acc = sumRequests pods acc.
Proof.
  induction pods as [|[pod|typ] pods IH]; intros acc; [done| |].
  - rewrite filter_cons_True by done. simpl. apply IH.
  - rewrite filter_cons_False by (simpl; auto). simpl. apply IH.
Qed.

Lemma notPodLog_length pods :
  length (notPodLog pods) = length (filter (fun obj => negb (isPod obj)) pods).
Proof.
  induction pods as [|[pod|typ] pods IH]; [done| |].
  - rewrite filter_cons_False by (simpl; auto). apply IH.
  - rewrite filter_cons_True by done. simpl. by rewrite IH.
Qed.

(** X3: objects of the lookup that are not pods are passed over: the
    totals are those of the pods alone, and the loop logs one "not pod"
    line for each such object and nothing else. *)
Theorem rangePods_skips_other (pods : list object) (acc : Quantity * Quantity) (w : World) :
  (rangePods pods acc w).1 = (rangePods (filter isPod pods) acc w).1
  ∧ indexer (rangePods pods acc w).2 = indexer w
  ∧ ∃ new, logged (rangePods pods acc w).2 = logged w ++ new
      ∧ Forall (fun e => e = LogNotPod) new
      ∧ length new = length (filter (fun obj => negb (isPod obj)) pods).
Proof.
  rewrite !rangePods_run. simpl. split_and!.
  - by rewrite sumRequests_filter_isPod.
  - done.
  - exists (notPodLog pods). split_and!; [done| |apply notPodLog_length].
    induction pods as [|[pod|typ] pods IH]; simpl; [done|done|by constructor].
Qed.

Lemma sameForm_refl q : sameForm q q.
Proof. unfold sameForm. destruct (d q); [right|left]; eauto. Qed.

Lemma sameForm_trans q1 q2 q3 : sameForm q1 q2 → sameForm q2 q3 → sameForm q1 q3.
Proof.
  unfold sameForm.
  intros [(H1 & H2 & E)|(H1 & H2)] [(H3 & H4 & E')|(H3 & H4)].
  - left. split_and!; congruence.
  - rewrite H2 in H3. by destruct H3.
  - rewrite H3 in H2. by destruct H2.
  - by right.
Qed.

Lemma sameForm_sym q q' : sameForm q q' → sameForm q' q.
Proof. unfold sameForm. intros [(?&?&?)|(?&?)]; [left|right]; auto. Qed.

Lemma toFloat_sameForm q q' : sameForm q q' → toFloat q = toFloat q'.
Proof.
  unfold toFloat, Quantity.AsInt64.
  intros [(-> & -> & ->)|([x ->] & [y ->])]; done.
Qed.

Lemma Add_sameForm q q' y : sameForm q q' → sameForm (Quantity.Add q y) (Quantity.Add q' y).
Proof.
  intros [(Hq & Hq' & Hi)|([x Hx] & [x' Hx'])].
  - destruct q as [a o], q' as [a' o']; simpl in *; subst. apply sameForm_refl.
  - right. unfold Quantity.Add. rewrite Hx, Hx'. split; by eexists.
Qed.

Lemma Add_zero_sameForm q : sameForm (Quantity.Add q zero) q.
Proof.
  unfold Quantity.Add, sameForm. destruct (d q) eqn:Hd; simpl.
  - right. split; by eexists.
  - left. by destruct q.
Qed.

Lemma rangeContainers_sameForm cs : ∀ acc acc',
  sameForm acc.1 acc'.1 → sameForm acc.2 acc'.2 →
  sameForm (rangeContainers cs acc).1 (rangeContainers cs acc').1 ∧
  sameForm (rangeContainers cs acc).2 (rangeContainers cs acc').2.
Proof.
  unfold rangeContainers.
  induction cs as [|c cs IH]; intros [cpu mem] [cpu' mem'] Hc Hm; [done|].
  simpl. apply IH; simpl; by apply Add_sameForm.
Qed.

Lemma rangeContainers_noRequests cs : ∀ acc,
  Forall noRequests cs →
  sameForm (rangeContainers cs acc).1 acc.1 ∧ sameForm (rangeContainers cs acc).2 acc.2.
Proof.
  unfold rangeContainers.
  induction cs as [|c cs IH]; intros [cpu mem] Hn; simpl.
  - split; apply sameForm_refl.
  - apply Forall_cons in Hn as [[Hc Hm] Hn]. unfold Cpu, Memory. rewrite Hc, Hm.
    destruct (rangeContainers_sameForm cs
                (Quantity.Add cpu zero, Quantity.Add mem zero) (cpu, mem))
      as [H1 H2]; [apply Add_zero_sameForm..|].
    destruct (IH (cpu, mem) Hn) as [H3 H4].
    split; eapply sameForm_trans; eassumption.
Qed.

Lemma sumRequests_padded l l' : padded l l' → ∀ acc acc',
  sameForm acc.1 acc'.1 → sameForm acc.2 acc'.2 →
  sameForm (sumRequests l acc).1 (sumRequests l' acc').1 ∧
  sameForm (sumRequests l acc).2 (sumRequests l' acc').2.
Proof.
  induction 1 as [|obj l l' _ IH|obj l l' Hn _ IH]; intros acc acc' H1 H2.
  - done.
  - destruct obj as [pod|typ]; simpl.
    + apply IH; by apply rangeContainers_sameForm.
    + by apply IH.
  - destruct obj as [pod|typ]; simpl in *; [|by apply IH].
    destruct (rangeContainers_noRequests _ acc' Hn) as [H3 H4].
    apply IH; (eapply sameForm_trans; [eassumption|by apply sameForm_sym]).
Qed.

(** The score of a node is fixed by the error of its lookup and by what
    [toFloat] makes of the two totals. *)
Lemma nodeScore_ext indefinite idx idx' node :
  (ByIndex idx "node" (Name (NodeMeta node))).2 = (ByIndex idx' "node" (Name (NodeMeta node))).2 →
  toFloat (sumRequests (ByIndex idx "node" (Name (NodeMeta node))).1 (zero, zero)).1 =
    toFloat (sumRequests (ByIndex idx' "node" (Name (NodeMeta node))).1 (zero, zero)).1 →
  toFloat (sumRequests (ByIndex idx "node" (Name (NodeMeta node))).1 (zero, zero)).2 =
    toFloat (sumRequests (ByIndex idx' "node" (Name (NodeMeta node))).1 (zero, zero)).2 →
  nodeScore indefinite idx node = nodeScore indefinite idx' node.
Proof.
  unfold nodeScore. case_decide; [|done].
  destruct (ByIndex idx _ _) as [pods e], (ByIndex idx' _ _) as [pods' e']; simpl.
  intros <- Hc Hm. destruct e; [done|].
  destruct (sumRequests pods _) as [cpu mem], (sumRequests pods' _) as [cpu' mem'].
  simpl in *. unfold utilization. by rewrite Hc, Hm.
Qed.

Lemma GroupPriority_ext indefinite pod nodes w w' :
  (∀ node, node ∈ nodes →
     nodeScore indefinite (indexer w) node = nodeScore indefinite (indexer w') node) →
  (GroupPriority indefinite pod nodes w).1 = (GroupPriority indefinite pod nodes w').1.
Proof.
  intros H. rewrite !GroupPriority_run. simpl. f_equal.
  apply map_ext_in. intros node Hin. unfold nodeEntry. f_equal.
  apply H. by apply list_elem_of_In.
Qed.

(** X4: pods without containers, containers that declare no requests and
    objects that are no pods change no score: two caches whose lookups
    differ only by such objects give the same priority list. *)
Theorem GroupPriority_padded indefinite (pod : Pod) (nodes : list Node) (w w' : World) :
  lookupsRelated padded (indexer w) (indexer w') →
  (GroupPriority indefinite pod nodes w).1 = (GroupPriority indefinite pod nodes w').1.
Proof.
  intros Hrel. apply GroupPriority_ext. intros node _.
  destruct (Hrel (Name (NodeMeta node))) as [Hp He].
  destruct (sumRequests_padded _ _ Hp (zero, zero) (zero, zero))
    as [H1 H2]; [apply sameForm_refl..|].
  apply nodeScore_ext; [done|by apply toFloat_sameForm..].
Qed.

Lemma GroupPriority_padded_witness :
  lookupsRelated padded (fixedIndexer [ObjPod Sample.p1])
    (fixedIndexer [ObjOther "v1.Node"; ObjPod Sample.p1; ObjPod idlePod]) ∧
  (GroupPriority amd64 Sample.p3 [Sample.n1; Sample.n2]
     (mkWorld (fixedIndexer [ObjPod Sample.p1]) [])).1 =
  (GroupPriority amd64 Sample.p3 [Sample.n1; Sample.n2]
     (mkWorld (fixedIndexer [ObjOther "v1.Node"; ObjPod Sample.p1; ObjPod idlePod]) [])).1.
Proof.
  assert (H : lookupsRelated padded (fixedIndexer [ObjPod Sample.p1])
    (fixedIndexer [ObjOther "v1.Node"; ObjPod Sample.p1; ObjPod idlePod])).
  { intros name. split; [|done]. simpl.
    apply padded_skip; [done|]. apply padded_keep.
    apply padded_skip; [by constructor|]. constructor. }
  split; [exact H|].
  exact (GroupPriority_padded amd64 Sample.p3 [Sample.n1; Sample.n2]
           (mkWorld (fixedIndexer [ObjPod Sample.p1]) [])
           (mkWorld (fixedIndexer [ObjOther "v1.Node"; ObjPod Sample.p1; ObjPod idlePod]) []) H).
Defined.

(** ** The cache that main.go builds *)





(** ** Adding quantities that are not negative *)

Lemma in_int64b_spec z : in_int64b z = true ↔ in_int64 z.
Proof. unfold in_int64b, in_int64. rewrite andb_true_iff, !Z.leb_le. tauto. Qed.

Lemma int64Add_nonneg a b :
  0 <= a <= mostPositive → 0 <= b <= mostPositive →
  int64Add a b = if in_int64b (a + b) then (a + b, true) else (0, false).
Proof.
  intros Ha Hb. unfold int64Add.
  destruct (wrap64_spec (a + b)) as (k & Hk & Hin).
  destruct (in_int64b (a + b)) eqn:E.
  - apply in_int64b_spec in E. rewrite wrap64_small by done.
    unfold in_int64, mostNegative, mostPositive in *.
    destruct ((0 <? a) && (0 <? b)).
    + destruct (a + b <? 0) eqn:E'; [apply Z.ltb_lt in E'; lia|done].
    + destruct ((a <? 0) && (b <? 0)) eqn:E'; [|done].
      apply andb_true_iff in E' as [E' _]. apply Z.ltb_lt in E'. lia.
  - assert (Hn : ¬ in_int64 (a + b)) by (rewrite <- in_int64b_spec; congruence).
    unfold in_int64, mostNegative, mostPositive in *.
    assert (H0 : (0 <? a) && (0 <? b) = true).
    { apply andb_true_iff. rewrite !Z.ltb_lt. lia. }
    rewrite H0. destruct (wrap64 (a + b) <? 0) eqn:E'; [done|].
    apply Z.ltb_ge in E'. lia.
Qed.

Lemma int64MultiplyScale_nonneg a b :
  0 <= a <= mostPositive → 1 < b → in_int64 (a * b) →
  (if (a =? 0) || (a =? 1) then (wrap64 (a * b), true)
   else let c := wrap64 (a * b) in (c, Z.quot c b =? a)) = (a * b, true).
Proof.
  intros Ha Hb Hin. rewrite wrap64_small by done.
  destruct ((a =? 0) || (a =? 1)); [done|]. cbv zeta. f_equal.
  apply Z.eqb_eq. apply Z.quot_mul. lia.
Qed.

Lemma not_mostNegative a : 0 <= a → (a =? mostNegative) = false.
Proof. intros Ha. apply Z.eqb_neq. unfold mostNegative, mostPositive. lia. Qed.

Lemma scaleLoop_nonneg n : ∀ v,
  0 <= v <= mostPositive → in_int64 (v * 10 ^ Z.of_nat n) →
  scaleLoop n v = (v * 10 ^ Z.of_nat n, true).
Proof.
  induction n as [|n IH]; intros v Hv Hin; cbn [scaleLoop].
  - f_equal. change (10 ^ Z.of_nat 0) with 1. lia.
  - rewrite Nat2Z.inj_succ, Z.pow_succ_r in * by lia.
    assert (1 <= 10 ^ Z.of_nat n) by (apply Z.lt_pred_le, Z.pow_pos_nonneg; lia).
    assert (Hv10 : in_int64 (v * 10))
      by (unfold in_int64, mostNegative, mostPositive in *; nia).
    unfold int64MultiplyScale. rewrite (not_mostNegative v) by lia. cbn [andb].
    rewrite int64MultiplyScale_nonneg by (done || lia).
    rewrite IH.
    + f_equal. lia.
    + unfold in_int64, mostNegative, mostPositive in *. lia.
    + by replace (v * 10 * 10 ^ Z.of_nat n) with (v * (10 * 10 ^ Z.of_nat n)) by lia.
Qed.

Lemma positiveScaleInt64_nonneg base sc :
  0 <= base <= mostPositive → 0 <= sc →
  if in_int64b (base * 10 ^ sc)
  then positiveScaleInt64 base sc = (base * 10 ^ sc, true)
  else (positiveScaleInt64 base sc).2 = false.
Proof.
  intros Hb Hsc. destruct (in_int64b (base * 10 ^ sc)) eqn:E.
  - apply in_int64b_spec in E. rewrite positiveScaleInt64_cases.
    unfold int64MultiplyScale, int64MultiplyScale10, int64MultiplyScale100,
      int64MultiplyScale1000.
    rewrite (not_mostNegative base) by lia. cbn [andb].
    repeat (case_match; [match goal with H : (_ =? _) = true |- _ =>
                           apply Z.eqb_eq in H; subst sc end|]).
    + f_equal. lia.
    + by apply int64MultiplyScale_nonneg.
    + by apply int64MultiplyScale_nonneg.
    + by apply int64MultiplyScale_nonneg.
    + by apply int64MultiplyScale_nonneg.
    + by apply int64MultiplyScale_nonneg.
    + rewrite <- (Z2Nat.id sc) in E by done. rewrite scaleLoop_nonneg by done.
      by rewrite Z2Nat.id.
  - destruct (positiveScaleInt64 base sc) as [c ok] eqn:Hp. destruct ok; [|done].
    apply positiveScaleInt64_ok in Hp as [-> Hin];
      [|unfold in_int64, mostNegative, mostPositive in *; lia|done].
    apply in_int64b_spec in Hin. congruence.
Qed.

Lemma pow10_ge_1 k : 0 <= k → 1 <= 10 ^ k.
Proof. intros Hk. apply Z.lt_pred_le, Z.pow_pos_nonneg; lia. Qed.

(** [int64Amount.Add] on two amounts above zero: the sum at the lesser
    scale if that fits, and a refusal otherwise. *)
Lemma amount_Add_pos a b :
  0 < value a <= mostPositive → 0 < value b <= mostPositive →
  int64Amount.Add a b =
    let s := Z.min (scale a) (scale b) in
    let v := value a * 10 ^ (scale a - s) + value b * 10 ^ (scale b - s) in
    if in_int64b v then Some (mkInt64Amount v s) else None.
Proof.
  intros Ha Hb. unfold int64Amount.Add. cbv zeta.
  destruct (value b =? 0) eqn:Eb; [apply Z.eqb_eq in Eb; lia|].
  destruct (value a =? 0) eqn:Ea; [apply Z.eqb_eq in Ea; lia|].
  destruct (scale a =? scale b) eqn:Es.
  { apply Z.eqb_eq in Es. rewrite <- Es, Z.min_id, Z.sub_diag.
    change (10 ^ 0) with 1. rewrite !Z.mul_1_r.
    rewrite int64Add_nonneg by lia. by destruct (in_int64b _). }
  apply Z.eqb_neq in Es.
  destruct (scale b <? scale a) eqn:El.
  - apply Z.ltb_lt in El. rewrite Z.min_r, Z.sub_diag by lia.
    change (10 ^ 0) with 1. rewrite Z.mul_1_r.
    pose proof (positiveScaleInt64_nonneg (value a) (scale a - scale b)
                  ltac:(lia) ltac:(lia)) as Hp.
    pose proof (pow10_ge_1 (scale a - scale b) ltac:(lia)).
    destruct (in_int64b (value a * 10 ^ (scale a - scale b))) eqn:E.
    + rewrite Hp. apply in_int64b_spec in E.
      rewrite int64Add_nonneg
        by (unfold in_int64, mostNegative, mostPositive in *; nia).
      by destruct (in_int64b _).
    + destruct (positiveScaleInt64 _ _) as [c ok]. simpl in Hp. subst ok.
      assert (Hn : in_int64b (value a * 10 ^ (scale a - scale b) + value b) = false).
      { apply not_true_iff_false. rewrite in_int64b_spec. intros Hin.
        apply not_true_iff_false in E. apply E. apply in_int64b_spec.
        unfold in_int64, mostNegative, mostPositive in *. nia. }
      by rewrite Hn.
  - apply Z.ltb_ge in El. rewrite Z.min_l, Z.sub_diag by lia.
    change (10 ^ 0) with 1. rewrite Z.mul_1_r.
    pose proof (positiveScaleInt64_nonneg (value b) (scale b - scale a)
                  ltac:(lia) ltac:(lia)) as Hp.
    pose proof (pow10_ge_1 (scale b - scale a) ltac:(lia)).
    destruct (in_int64b (value b * 10 ^ (scale b - scale a))) eqn:E.
    + rewrite Hp. apply in_int64b_spec in E.
      rewrite int64Add_nonneg
        by (unfold in_int64, mostNegative, mostPositive in *; nia).
      by destruct (in_int64b _).
    + destruct (positiveScaleInt64 _ _) as [c ok]. simpl in Hp. subst ok.
      assert (Hn : in_int64b (value a + value b * 10 ^ (scale b - scale a)) = false).
      { apply not_true_iff_false. rewrite in_int64b_spec. intros Hin.
        apply not_true_iff_false in E. apply E. apply in_int64b_spec.
        unfold in_int64, mostNegative, mostPositive in *. nia. }
      by rewrite Hn.
Qed.

Lemma optMin_None_r a : optMin a None = a.
Proof. by destruct a. Qed.

Lemma optMin_assoc a b c : optMin a (optMin b c) = optMin (optMin a b) c.
Proof. destruct a, b, c; simpl; f_equal; lia. Qed.

Lemma optMin_comm a b : optMin a b = optMin b a.
Proof. destruct a, b; simpl; f_equal; lia. Qed.

Lemma minScale_app l1 l2 : minScale (l1 ++ l2) = optMin (minScale l1) (minScale l2).
Proof.
  induction l1 as [|a l1 IH]; simpl; [done|].
  fold (minScale (l1 ++ l2)) (minScale l1). by rewrite IH, optMin_assoc.
Qed.

Lemma scaledSum_app s l1 l2 : scaledSum s (l1 ++ l2) = scaledSum s l1 + scaledSum s l2.
Proof.
  induction l1 as [|a l1 IH]; simpl; [done|].
  fold (scaledSum s (l1 ++ l2)) (scaledSum s l1). rewrite IH. lia.
Qed.

Lemma minScale_None_zero l a : minScale l = None → a ∈ l → value a = 0.
Proof.
  induction l as [|b l IH]; simpl; [by intros _ ?%elem_of_nil|].
  fold (minScale l).
  destruct (value b =? 0) eqn:E; [|by destruct (minScale l)].
  apply Z.eqb_eq in E. simpl. intros Hm [->|Hin]%elem_of_cons; [done|by apply IH].
Qed.

Lemma minScale_None l s : minScale l = None → scaledSum s l = 0.
Proof.
  induction l as [|a l IH]; simpl; [done|].
  fold (minScale l) (scaledSum s l). intros Hm.
  rewrite (minScale_None_zero (a :: l) a) by (done || left).
  destruct (value a =? 0); [|by destruct (minScale l)].
  simpl in Hm. rewrite IH by done. lia.
Qed.

Lemma minScale_lower l s a :
  minScale l = Some s → a ∈ l → value a ≠ 0 → s <= scale a.
Proof.
  revert s. induction l as [|b l IH]; intros s; simpl; [by intros _ ?%elem_of_nil|].
  fold (minScale l). intros Hm [->|Hin]%elem_of_cons Hv.
  - apply Z.eqb_neq in Hv. rewrite Hv in Hm.
    destruct (minScale l); simpl in Hm; injection Hm as <-; lia.
  - destruct (minScale l) as [s'|] eqn:Hs.
    + specialize (IH s' eq_refl Hin Hv).
      destruct (value b =? 0); simpl in Hm; injection Hm as <-; lia.
    + by pose proof (minScale_None_zero l a Hs Hin).
Qed.

Lemma scaledSum_rescale l s s' :
  (∀ a, a ∈ l → value a ≠ 0 → s <= scale a) → s' <= s →
  scaledSum s' l = scaledSum s l * 10 ^ (s - s').
Proof.
  intros Hl Hs. induction l as [|a l IH]; simpl; [done|].
  fold (scaledSum s' l) (scaledSum s l).
  rewrite IH by (intros b Hb; apply Hl; by right).
  destruct (Z.eq_dec (value a) 0) as [->|Hv]; [lia|].
  pose proof (Hl a ltac:(left) Hv).
  replace (scale a - s') with ((scale a - s) + (s - s')) by lia.
  rewrite Z.pow_add_r by lia. lia.
Qed.

Lemma scaledSum_nonneg l s :
  Forall (fun a => 0 <= value a) l → 0 <= scaledSum s l.
Proof.
  induction 1 as [|a l Ha _ IH]; simpl; [done|]. fold (scaledSum s l).
  pose proof (Z.pow_nonneg 10 (scale a - s) ltac:(lia)). nia.
Qed.

Lemma scaledSum_pos_lower l s :
  Forall (fun a => 0 <= value a) l →
  (∀ a, a ∈ l → value a ≠ 0 → s <= scale a) →
  minScale l ≠ None → 0 < scaledSum s l.
Proof.
  intros Hl. induction Hl as [|a l Ha Hl IH]; intros Hlow Hm; simpl in *; [done|].
  fold (minScale l) (scaledSum s l) in *.
  pose proof (scaledSum_nonneg l s Hl).
  destruct (value a =? 0) eqn:E.
  - apply Z.eqb_eq in E. rewrite E. simpl in Hm.
    assert (0 < scaledSum s l); [|lia].
    apply IH; [|done]. intros b Hb. apply Hlow. by right.
  - apply Z.eqb_neq in E.
    pose proof (Hlow a ltac:(left) E).
    pose proof (pow10_ge_1 (scale a - s) ltac:(lia)). nia.
Qed.

Lemma scaledSum_pos l s :
  Forall (fun a => 0 <= value a) l → minScale l = Some s → 0 < scaledSum s l.
Proof.
  intros Hl Hm. apply scaledSum_pos_lower; [done| |congruence].
  intros a. by apply minScale_lower.
Qed.

Lemma Quantity_Add_plain (a : int64Amount) (y : Quantity) :
  d y = None →
  Quantity.Add (mkQuantity a None) y =
    match int64Amount.Add a (i y) with
    | Some c => mkQuantity c None
    | None => mkQuantity (mkInt64Amount 0 0)
                (Some (Dec.Add (int64Amount.AsDec a) (int64Amount.AsDec (i y))))
    end.
Proof. intros Hy. unfold Quantity.Add, Quantity.AsDec. simpl. by rewrite Hy. Qed.

Lemma Quantity_Add_dec q y : is_Some (d q) → is_Some (d (Quantity.Add q y)).
Proof. intros [x Hx]. unfold Quantity.Add. rewrite Hx. by eexists. Qed.

(** Adding up quantities that are not negative, from zero: the total is
    [plainTotal] of the amounts while that fits an [int64] amount, and in
    arbitrary precision form from then on. *)
Lemma fold_Add_plain qs :
  Forall plainNonneg qs →
  match plainTotal (map i qs) with
  | Some a => foldl Quantity.Add zero qs = mkQuantity a None
  | None => is_Some (d (foldl Quantity.Add zero qs))
  end.
Proof.
  induction qs as [|y qs IH] using rev_ind; intros Hqs; [done|].
  apply Forall_app in Hqs as [Hqs Hy]. specialize (IH Hqs).
  apply Forall_cons in Hy as [[Hdy Hvy] _].
  assert (Hnn : Forall (fun a => 0 <= value a) (map i qs)).
  { apply Forall_map. eapply Forall_impl; [exact Hqs|]. by intros q [_ [? _]]. }
  rewrite foldl_app, map_app. simpl. unfold plainTotal in *.
  rewrite minScale_app. simpl.
  destruct (value (i y) =? 0) eqn:Ey.
  - apply Z.eqb_eq in Ey. simpl. rewrite optMin_None_r.
    destruct (minScale (map i qs)) as [s|] eqn:Hm.
    + rewrite scaledSum_app. simpl. rewrite Ey, Z.mul_0_l, !Z.add_0_r.
      destruct (in_int64b (scaledSum s (map i qs))).
      * rewrite IH, Quantity_Add_plain by done.
        unfold int64Amount.Add. by rewrite Ey.
      * by apply Quantity_Add_dec.
    + rewrite IH, Quantity_Add_plain by done.
      unfold int64Amount.Add. by rewrite Ey.
  - apply Z.eqb_neq in Ey. simpl.
    destruct (minScale (map i qs)) as [s|] eqn:Hm; simpl.
    + pose proof (scaledSum_pos _ _ Hnn Hm) as Hpos.
      rewrite scaledSum_app. simpl. rewrite Z.add_0_r.
      rewrite (scaledSum_rescale (map i qs) s (Z.min s (scale (i y))))
        by (try (intros a; by apply minScale_lower); lia).
      pose proof (pow10_ge_1 (s - Z.min s (scale (i y))) ltac:(lia)).
      pose proof (Z.pow_nonneg 10 (scale (i y) - Z.min s (scale (i y))) ltac:(lia)).
      destruct (in_int64b (scaledSum s (map i qs))) eqn:E.
      * apply in_int64b_spec in E. rewrite IH, Quantity_Add_plain by done.
        rewrite amount_Add_pos
          by (simpl; unfold in_int64, mostNegative, mostPositive in *; lia).
        simpl. by destruct (in_int64b _).
      * assert (Hn : in_int64b
                  (scaledSum s (map i qs) * 10 ^ (s - Z.min s (scale (i y))) +
                   value (i y) * 10 ^ (scale (i y) - Z.min s (scale (i y)))) = false).
        { apply not_true_iff_false. rewrite in_int64b_spec. intros Hin.
          apply not_true_iff_false in E. apply E. apply in_int64b_spec.
          unfold in_int64, mostNegative, mostPositive in *. nia. }
        rewrite Hn. by apply Quantity_Add_dec.
    + rewrite scaledSum_app. simpl.
      rewrite (minScale_None _ _ Hm), Z.sub_diag. change (10 ^ 0) with 1.
      replace (0 + (value (i y) * 1 + 0)) with (value (i y)) by lia.
      assert (Hin : in_int64b (value (i y)) = true).
      { apply in_int64b_spec. unfold in_int64, mostNegative, mostPositive in *. lia. }
      rewrite Hin, IH, Quantity_Add_plain by done.
      unfold int64Amount.Add. simpl.
      apply Z.eqb_neq in Ey. rewrite Ey. by destruct (i y).
Qed.

Lemma minScale_perm l l' : l ≡ₚ l' → minScale l = minScale l'.
Proof.
  induction 1 as [|a l l' _ IH|a b l|l1 l2 l3 _ IH1 _ IH2]; simpl.
  - done.
  - fold (minScale l) (minScale l'). by rewrite IH.
  - fold (minScale l). rewrite !optMin_assoc. f_equal. apply optMin_comm.
  - congruence.
Qed.

Lemma scaledSum_perm s l l' : l ≡ₚ l' → scaledSum s l = scaledSum s l'.
Proof.
  induction 1 as [|a l l' _ IH|a b l|l1 l2 l3 _ IH1 _ IH2]; simpl.
  - done.
  - fold (scaledSum s l) (scaledSum s l'). by rewrite IH.
  - lia.
  - congruence.
Qed.

Lemma plainTotal_perm l l' : l ≡ₚ l' → plainTotal l = plainTotal l'.
Proof.
  intros H. unfold plainTotal. rewrite (minScale_perm _ _ H).
  destruct (minScale l'); [|done]. by rewrite (scaledSum_perm _ _ _ H).
Qed.

Lemma fold_Add_perm qs qs' :
  qs ≡ₚ qs' → Forall plainNonneg qs →
  sameForm (foldl Quantity.Add zero qs) (foldl Quantity.Add zero qs').
Proof.
  intros Hp Hqs.
  assert (Hqs' : Forall plainNonneg qs') by (by rewrite <- Hp).
  pose proof (fold_Add_plain qs Hqs) as H1.
  pose proof (fold_Add_plain qs' Hqs') as H2.
  rewrite (plainTotal_perm (map i qs) (map i qs')) in H1 by (by apply fmap_Permutation).
  destruct (plainTotal (map i qs')).
  - rewrite H1, H2. apply sameForm_refl.
  - by right.
Qed.

Lemma rangeContainers_fold cs : ∀ acc,
  rangeContainers cs acc =
    (foldl Quantity.Add acc.1 (map cpuOf cs), foldl Quantity.Add acc.2 (map memOf cs)).
Proof.
  unfold rangeContainers.
  induction cs as [|c cs IH]; intros [cpu mem]; [done|]. simpl. by rewrite IH.
Qed.

Lemma sumRequests_fold pods : ∀ acc,
  sumRequests pods acc =
    (foldl Quantity.Add acc.1 (map cpuOf (containersOf pods)),
     foldl Quantity.Add acc.2 (map memOf (containersOf pods))).
Proof.
  induction pods as [|[pod|typ] pods IH]; intros [cpu mem]; [done| |].
  - simpl. rewrite IH, rangeContainers_fold. simpl.
    by rewrite !map_app, !foldl_app.
  - simpl. by rewrite IH.
Qed.

Lemma containersOf_perm pods pods' : pods ≡ₚ pods' → containersOf pods ≡ₚ containersOf pods'.
Proof.
  induction 1 as [|obj l l' _ IH|a b l|l1 l2 l3 _ IH1 _ IH2]; simpl.
  - done.
  - by rewrite IH.
  - rewrite !app_assoc. f_equiv. apply Permutation_app_comm.
  - by etrans.
Qed.

Lemma containersOf_plain pods :
  Forall plainObject pods → Forall plainContainer (containersOf pods).
Proof.
  induction 1 as [|[pod|typ] pods Ho _ IH]; simpl; [done| |done].
  by apply Forall_app.
Qed.

Lemma sumRequests_reordered pods pods' :
  reordered pods pods' →
  sameForm (sumRequests pods (zero, zero)).1 (sumRequests pods' (zero, zero)).1 ∧
  sameForm (sumRequests pods (zero, zero)).2 (sumRequests pods' (zero, zero)).2.
Proof.
  intros [Hp Hpl]. rewrite !sumRequests_fold. simpl.
  pose proof (containersOf_perm _ _ Hp) as Hc.
  pose proof (containersOf_plain _ Hpl) as Hcp.
  split; apply fold_Add_perm.
  - by apply fmap_Permutation.
  - apply Forall_map. eapply Forall_impl; [exact Hcp|]. by intros c [? _].
  - by apply fmap_Permutation.
  - apply Forall_map. eapply Forall_impl; [exact Hcp|]. by intros c [_ ?].
Qed.

(** X7: the order in which the cache returns the pods of a node (that of a
    Go map walk) has no influence on the priority list, provided the
    requests are quantities in [int64] form that are not negative. *)
Theorem GroupPriority_pod_order indefinite (pod : Pod) (nodes : list Node) (w w' : World) :
  lookupsRelated reordered (indexer w) (indexer w') →
  (GroupPriority indefinite pod nodes w).1 = (GroupPriority indefinite pod nodes w').1.
Proof.
  intros Hrel. apply GroupPriority_ext. intros node _.
  destruct (Hrel (Name (NodeMeta node))) as [Hp He].
  destruct (sumRequests_reordered _ _ Hp) as [H1 H2].
  apply nodeScore_ext; [done|by apply toFloat_sameForm..].
Qed.

Lemma GroupPriority_pod_order_witness :
  lookupsRelated reordered
    (fixedIndexer [ObjPod milliPod1; ObjPod milliPod2; ObjPod Sample.p1])
    (fixedIndexer [ObjPod Sample.p1; ObjPod milliPod2; ObjPod milliPod1]) ∧
  (GroupPriority amd64 Sample.p3 [Sample.n1; Sample.n2]
     (mkWorld (fixedIndexer [ObjPod milliPod1; ObjPod milliPod2; ObjPod Sample.p1]) [])).1 =
  (GroupPriority amd64 Sample.p3 [Sample.n1; Sample.n2]
     (mkWorld (fixedIndexer [ObjPod Sample.p1; ObjPod milliPod2; ObjPod milliPod1]) [])).1.
Proof.
  assert (H : lookupsRelated reordered
    (fixedIndexer [ObjPod milliPod1; ObjPod milliPod2; ObjPod Sample.p1])
    (fixedIndexer [ObjPod Sample.p1; ObjPod milliPod2; ObjPod milliPod1])).
  { intros name. split; [|done]. simpl. split.
    - rewrite (Permutation_swap (ObjPod milliPod1)).
      rewrite (Permutation_swap (ObjPod milliPod1) (ObjPod Sample.p1)).
      by rewrite (Permutation_swap (ObjPod milliPod2) (ObjPod Sample.p1)).
    - repeat constructor; by vm_compute. }
  split; [exact H|].
  exact (GroupPriority_pod_order amd64 Sample.p3 [Sample.n1; Sample.n2]
           (mkWorld (fixedIndexer [ObjPod milliPod1; ObjPod milliPod2; ObjPod Sample.p1]) [])
           (mkWorld (fixedIndexer [ObjPod Sample.p1; ObjPod milliPod2; ObjPod milliPod1]) []) H).
Defined.

(** ** Requests at a scale below zero *)

Lemma plainTotal_negative_scale l a :
  Forall (fun a => 0 <= value a) l →
  a ∈ l → value a ≠ 0 → scale a < 0 →
  match plainTotal l with
  | Some t => scale t < 0
  | None => True
  end.
Proof.
  intros Hl Hin Hv Hs. unfold plainTotal.
  destruct (minScale l) as [s|] eqn:Hm.
  - pose proof (minScale_lower l s a Hm Hin Hv).
    destruct (in_int64b _); simpl; [lia|done].
  - by pose proof (minScale_None_zero l a Hm Hin).
Qed.

Lemma fold_Add_fractional (qs : list Quantity) (q : Quantity) :
  Forall plainNonneg qs →
  q ∈ qs → value (i q) ≠ 0 → scale (i q) < 0 →
  toFloat (foldl Quantity.Add zero qs) = S754_zero false.
Proof.
  intros Hqs Hin Hv Hs.
  pose proof (fold_Add_plain qs Hqs) as Hf.
  assert (Hnn : Forall (fun a => 0 <= value a) (map i qs)).
  { apply Forall_map. eapply Forall_impl; [exact Hqs|]. by intros x [_ [? _]]. }
  pose proof (plainTotal_negative_scale (map i qs) (i q) Hnn
                ltac:(by apply list_elem_of_fmap_2) Hv Hs) as Ht.
  destruct (plainTotal (map i qs)) as [t|].
  - rewrite Hf. apply toFloat_slow_path. by right.
  - apply toFloat_slow_path. by left.
Qed.

(** X8: one container whose CPU request is above zero and kept at a scale
    below zero (any amount in thousandths, such as 250m) makes [toFloat]
    of the CPU total of the pod loop 0, whatever the other pods request;
    the same holds for memory.  (Requests are taken in [int64] form and
    not negative.) *)
Theorem rangePods_fractional (pods : list object) (c : Container) (w : World) :
  Forall plainObject pods →
  c ∈ containersOf pods →
  (value (i (cpuOf c)) ≠ 0 → scale (i (cpuOf c)) < 0 →
     toFloat (rangePods pods (zero, zero) w).1.1 = S754_zero false) ∧
  (value (i (memOf c)) ≠ 0 → scale (i (memOf c)) < 0 →
     toFloat (rangePods pods (zero, zero) w).1.2 = S754_zero false).
Proof.
  intros Hpl Hin. rewrite rangePods_run, sumRequests_fold. simpl.
  pose proof (containersOf_plain _ Hpl) as Hcp.
  split; intros Hv Hs.
  - apply (fold_Add_fractional _ (cpuOf c)); [|by apply list_elem_of_fmap_2|done..].
    apply Forall_map. eapply Forall_impl; [exact Hcp|]. by intros x [? _].
  - apply (fold_Add_fractional _ (memOf c)); [|by apply list_elem_of_fmap_2|done..].
    apply Forall_map. eapply Forall_impl; [exact Hcp|]. by intros x [_ ?].
Qed.

Lemma rangePods_fractional_witness :
  (Forall plainObject [ObjPod Sample.p1; ObjPod milliPod1] ∧
   mkContainer (mkResourceRequirements (Sample.resources (Sample.milli 500) (Sample.Gi 1)))
     ∈ containersOf [ObjPod Sample.p1; ObjPod milliPod1]) ∧
  toFloat (rangePods [ObjPod Sample.p1; ObjPod milliPod1] (zero, zero) Sample.world).1.1 =
    S754_zero false.
Proof.
  assert (H1 : Forall plainObject [ObjPod Sample.p1; ObjPod milliPod1]).
  { repeat (first [apply Forall_cons_2 | apply Forall_nil_2 | split]; simpl);
      by vm_compute. }
  assert (H2 : mkContainer (mkResourceRequirements
                 (Sample.resources (Sample.milli 500) (Sample.Gi 1)))
               ∈ containersOf [ObjPod Sample.p1; ObjPod milliPod1])
    by (right; left).
  split; [done|].
  by apply (rangePods_fractional _ _ Sample.world H1 H2).
Defined.

(** ** Whole numbers below 2^53 *)

Lemma pos_iter_xO p k : Z.pos (Pos.iter xO p k) = Z.pos p * 2 ^ Z.pos k.
Proof.
  induction k as [|k IH] using Pos.peano_ind.
  - simpl. lia.
  - rewrite Pos.iter_succ, Pos2Z.inj_xO, IH, Pos2Z.inj_succ, Z.pow_succ_r by lia. lia.
Qed.

Lemma binary_round_aux_canonical s M E :
  0 < M → Zdigits2 M = 53 → -1022 <= E <= 971 →
  binary_round_aux prec emax s M E loc_Exact = S754_finite s (Z.to_pos M) E.
Proof.
  intros HM Hd HE. rewrite binary_round_aux_eq by lia.
  assert (H1 : round_m1 M loc_Exact = M).
  { unfold round_m1. rewrite Hd. reflexivity. }
  assert (H2 : round_m M loc_Exact = M).
  { unfold round_m. rewrite H1, Hd. reflexivity. }
  unfold round_d. rewrite H1, H2, Hd. simpl. rewrite Z.add_0_r.
  destruct (E <=? 971) eqn:El; [done|]. apply Z.leb_gt in El. lia.
Qed.

(** [float64(a)] is exact below 2^53: mantissa a * 2^k at exponent -k. *)
Lemma binary_round_exact s p :
  Z.pos p < 2 ^ 53 →
  ∃ m e, binary_round prec emax s p 0 = S754_finite s m e ∧
         e <= 0 ∧ Z.pos m = Z.pos p * 2 ^ (- e).
Proof.
  intros Hp. unfold binary_round. rewrite shl_align_int.
  assert (Hd : Z.pos (digits2_pos p) <= 53) by (apply (Zdigits2_lt (Z.pos p)); lia).
  destruct (Z.pos (digits2_pos p) - 53) as [|k|k] eqn:E; [|lia|].
  - rewrite binary_round_aux_canonical by (simpl; lia).
    exists p, 0. simpl. split_and!; [done|lia|lia].
  - rewrite binary_round_aux_canonical;
      [|lia|cbn [Zdigits2]; rewrite digits2_iter_xO; lia|lia].
    exists (Pos.iter xO p k), (Z.neg k). simpl. split_and!; [done|lia|].
    apply pos_iter_xO.
Qed.

Lemma truncate_exact s m e p :
  e <= 0 → Z.pos m = Z.pos p * 2 ^ (- e) →
  truncate (S754_finite s m e) = cond_Zopp s (Z.pos p).
Proof.
  intros He Hm. unfold truncate. f_equal.
  rewrite Z.shiftl_div_pow2 by done. rewrite Hm.
  apply Z.div_mul. apply Z.pow_nonzero; lia.
Qed.

Lemma float64_of_int64_exact indefinite a :
  - 2 ^ 53 < a < 2 ^ 53 →
  int64_of_float64 indefinite (float64_of_int64 a) = a.
Proof.
  intros Ha. unfold float64_of_int64, binary_normalize.
  destruct a as [|p|p]; [done| |].
  - destruct (binary_round_exact false p) as (m & e & -> & He & Hm); [lia|].
    unfold int64_of_float64. rewrite (truncate_exact _ _ _ p) by done.
    cbn [is_finite cond_Zopp andb].
    assert (Hin : in_int64b (Z.pos p) = true).
    { apply in_int64b_spec. unfold in_int64, mostNegative, mostPositive. lia. }
    by rewrite Hin.
  - destruct (binary_round_exact true p) as (m & e & -> & He & Hm); [lia|].
    unfold int64_of_float64. rewrite (truncate_exact _ _ _ p) by done.
    cbn [is_finite cond_Zopp andb]. change (- Z.pos p) with (Z.neg p).
    assert (Hin : in_int64b (Z.neg p) = true).
    { apply in_int64b_spec. unfold in_int64, mostNegative, mostPositive. lia. }
    by rewrite Hin.
Qed.

(** X9: [toFloat] loses nothing on a quantity that [AsInt64] converts to a
    whole number below 2^53 in size: converting the float back gives the
    number, which is the value of the quantity. *)
Theorem toFloat_exact indefinite (q : Quantity) (a : Z) :
  wfQuantity q →
  Quantity.AsInt64 q = (a, true) →
  - 2 ^ 53 < a < 2 ^ 53 →
  int64_of_float64 indefinite (toFloat q) = a ∧ (Qvalue q == inject_Z a)%Q.
Proof.
  intros Hwf Hq Ha. split.
  - unfold toFloat. rewrite Hq. by apply float64_of_int64_exact.
  - by apply Quantity_AsInt64_ok in Hq as [Hq _].
Qed.

Lemma toFloat_exact_witness :
  (wfQuantity (mkQuantity (mkInt64Amount 8 3) None) ∧
   Quantity.AsInt64 (mkQuantity (mkInt64Amount 8 3) None) = (8000, true) ∧
   - 2 ^ 53 < 8000 < 2 ^ 53) ∧
  int64_of_float64 amd64 (toFloat (mkQuantity (mkInt64Amount 8 3) None)) = 8000 ∧
  (Qvalue (mkQuantity (mkInt64Amount 8 3) None) == inject_Z 8000)%Q.
Proof.
  assert (H1 : wfQuantity (mkQuantity (mkInt64Amount 8 3) None)).
  { unfold wfQuantity, in_int64, mostNegative, mostPositive. simpl. lia. }
  assert (H2 : Quantity.AsInt64 (mkQuantity (mkInt64Amount 8 3) None) = (8000, true))
    by reflexivity.
  assert (H3 : - 2 ^ 53 < 8000 < 2 ^ 53) by lia.
  split; [done|].
  exact (toFloat_exact amd64 _ _ H1 H2 H3).
Defined.

(** ** The log level *)

Lemma upperByte_idem c : strings.upperByte (strings.upperByte c) = strings.upperByte c.
Proof. destruct c as [[] [] [] [] [] [] [] []]; reflexivity. Qed.

Lemma upperByte_ascii c :
  strings.isASCIIByte (strings.upperByte c) = strings.isASCIIByte c.
Proof. destruct c as [[] [] [] [] [] [] [] []]; reflexivity. Qed.

Lemma upperByte_not_lower c : strings.isLowerByte (strings.upperByte c) = false.
Proof. destruct c as [[] [] [] [] [] [] [] []]; reflexivity. Qed.

Lemma mapBytes_no_lower s :
  strings.hasLower s = false → strings.mapBytes strings.upperByte s = s.
Proof.
  induction s as [|c s IH]; simpl; [done|].
  intros [Hc Hs]%orb_false_iff. rewrite IH by done.
  unfold strings.upperByte. by rewrite Hc.
Qed.

Lemma ToUpper_ascii unicodeToUpper s :
  strings.isASCII s = true →
  strings.ToUpper unicodeToUpper s = strings.mapBytes strings.upperByte s.
Proof.
  intros Ha. unfold strings.ToUpper. rewrite Ha.
  destruct (strings.hasLower s) eqn:Hl; [done|]. by rewrite mapBytes_no_lower.
Qed.

Lemma mapBytes_upper_ascii s :
  strings.isASCII (strings.mapBytes strings.upperByte s) = strings.isASCII s.
Proof. induction s as [|c s IH]; simpl; [done|]. by rewrite upperByte_ascii, IH. Qed.

Lemma mapBytes_upper_idem s :
  strings.mapBytes strings.upperByte (strings.mapBytes strings.upperByte s) =
  strings.mapBytes strings.upperByte s.
Proof. induction s as [|c s IH]; simpl; [done|]. by rewrite upperByte_idem, IH. Qed.

(** X10: on ASCII input [StringToLevel] does not see letter case: two
    strings with the same upper case form get the same level and the same
    log line, and so does the upper case form itself. *)
Theorem StringToLevel_case unicodeToUpper (s1 s2 : string) :
  strings.isASCII s1 = true → strings.isASCII s2 = true →
  strings.mapBytes strings.upperByte s1 = strings.mapBytes strings.upperByte s2 →
  StringToLevel unicodeToUpper s1 = StringToLevel unicodeToUpper s2
  ∧ StringToLevel unicodeToUpper (strings.ToUpper unicodeToUpper s1) =
    StringToLevel unicodeToUpper s1.
Proof.
  intros H1 H2 He. unfold StringToLevel.
  rewrite !(ToUpper_ascii _ s1), (ToUpper_ascii _ s2) by done.
  rewrite ToUpper_ascii by (by rewrite mapBytes_upper_ascii).
  by rewrite mapBytes_upper_idem, He.
Qed.

Lemma StringToLevel_case_witness :
  (strings.isASCII "Warning" = true ∧ strings.isASCII "wArNiNg" = true ∧
   strings.mapBytes strings.upperByte "Warning" =
   strings.mapBytes strings.upperByte "wArNiNg") ∧
  StringToLevel (fun s => s) "Warning" = StringToLevel (fun s => s) "wArNiNg" ∧
  StringToLevel (fun s => s) (strings.ToUpper (fun s => s) "Warning") =
    StringToLevel (fun s => s) "Warning".
Proof.
  split; [done|].
  exact (StringToLevel_case (fun s => s) "Warning" "wArNiNg" eq_refl eq_refl eq_refl).
Defined.


(** ** The totals of the pod loop *)

(** X12: the pod loop adds without loss: whatever the form the totals end
    up in, their values are the exact sums of the CPU and of the memory
    requests of all containers of the pods it is given; an overflow of the
    [int64] form moves the total to arbitrary precision instead of
    wrapping it. *)
Theorem rangePods_exact (pods : list object) (w : World) :
  Forall wfObject pods →
  (Qvalue (rangePods pods (zero, zero) w).1.1 == cpuRequests pods)%Q ∧
  (Qvalue (rangePods pods (zero, zero) w).1.2 == memRequests pods)%Q.
Proof.
  intros Hwf. rewrite rangePods_run. simpl.
  destruct (sumRequests_value pods (zero, zero) Hwf) as (E1 & E2 & _);
    [unfold wfQuantity, in_int64, mostNegative, mostPositive; simpl; lia..|].
  rewrite E1, E2. simpl.
  assert (Hz : (Qvalue zero == 0)%Q) by reflexivity.
  rewrite Hz. split; ring.
Qed.

Lemma rangePods_exact_witness :
  Forall wfObject [ObjPod Sample.p4; ObjOther "v1.Node"; ObjPod milliPod1] ∧
  (Qvalue (rangePods [ObjPod Sample.p4; ObjOther "v1.Node"; ObjPod milliPod1]
             (zero, zero) Sample.world).1.1 ==
   cpuRequests [ObjPod Sample.p4; ObjOther "v1.Node"; ObjPod milliPod1])%Q ∧
  (Qvalue (rangePods [ObjPod Sample.p4; ObjOther "v1.Node"; ObjPod milliPod1]
             (zero, zero) Sample.world).1.2 ==
   memRequests [ObjPod Sample.p4; ObjOther "v1.Node"; ObjPod milliPod1])%Q.
Proof.
  assert (H : Forall wfObject [ObjPod Sample.p4; ObjOther "v1.Node"; ObjPod milliPod1]).
  { unfold milliPod1, Sample.p4, Sample.pod. simpl.
    repeat (first [apply Forall_cons_2 | apply Forall_nil_2 | split]; simpl);
      try done;
      unfold wfQuantity, in_int64, mostNegative, mostPositive; vm_compute;
      split; discriminate. }
  split; [exact H|].
  exact (rangePods_exact _ Sample.world H).
Defined.

(** ** Rounding below a bound *)

Lemma shr_rec_m q l n :
  0 < q → shr_m (shr_rec (shr_record_of_loc q l) n) = q / 2 ^ Z.max 0 n.
Proof.
  intros Hq. unfold shr_rec, shr. destruct n as [|p|p]; simpl fst.
  - rewrite shr_record_of_loc_m. change (2 ^ Z.max 0 0) with 1. by rewrite Z.div_1_r.
  - rewrite shr_iter_m by (rewrite shr_record_of_loc_m; lia).
    rewrite shr_record_of_loc_m. by rewrite Z.max_r by lia.
  - rewrite shr_record_of_loc_m. rewrite Z.max_l by lia.
    change (2 ^ 0) with 1. by rewrite Z.div_1_r.
Qed.

Lemma shr_1_exact m :
  0 <= m → (2 | m) →
  shr_1 (Build_shr_record m false false) = Build_shr_record (m / 2) false false.
Proof.
  intros Hm [k ->]. rewrite Z.div_mul by lia.
  destruct k as [|k|k]; [done| |lia].
  simpl. by rewrite Pos.mul_comm.
Qed.

Lemma shr_iter_exact p : ∀ m,
  0 <= m → (2 ^ Z.pos p | m) →
  SpecFloat.iter_pos shr_1 p (Build_shr_record m false false) =
    Build_shr_record (m / 2 ^ Z.pos p) false false.
Proof.
  intros m. rewrite iter_pos_iter. revert m.
  induction p as [|p IH] using Pos.peano_ind; intros m Hm [k Hk].
  - simpl. apply shr_1_exact; [done|]. exists k. by rewrite Hk.
  - rewrite Pos.iter_succ_r. rewrite Pos2Z.inj_succ, Z.pow_succ_r in * by lia.
    rewrite shr_1_exact; [|done|exists (k * 2 ^ Z.pos p); lia].
    rewrite IH.
    + by rewrite Z.div_div by lia.
    + apply Z.div_pos; lia.
    + exists k. subst m.
      replace (k * (2 * 2 ^ Z.pos p)) with (k * 2 ^ Z.pos p * 2) by lia.
      by rewrite Z.div_mul by lia.
Qed.

Lemma shr_rec_exact q n :
  0 < q → (2 ^ Z.max 0 n | q) →
  shr_rec (shr_record_of_loc q loc_Exact) n =
    Build_shr_record (q / 2 ^ Z.max 0 n) false false.
Proof.
  intros Hq Hd. unfold shr_rec, shr. destruct n as [|p|p]; simpl fst.
  - simpl. change (2 ^ Z.max 0 0) with 1. by rewrite Z.div_1_r.
  - rewrite Z.max_r in * by lia. simpl shr_record_of_loc.
    apply shr_iter_exact; [lia|done].
  - rewrite Z.max_l by lia. simpl. change (2 ^ 0) with 1. by rewrite Z.div_1_r.
Qed.

(** Rounding [q * 2^e] does not step over a bound [B * 2^e] above it that
    has as many low zero bits as the rounding shifts out. *)
Lemma round_bound q l B :
  0 < q <= B → (q = B → l = loc_Exact) →
  (2 ^ Z.max 0 (Zdigits2 q - 53) | B) →
  0 < round_m q l ∧ round_m q l * 2 ^ round_d q l <= B.
Proof.
  intros Hq Hl [B1 HB]. split; [apply round_m_pos; lia|].
  set (n1 := Z.max 0 (Zdigits2 q - 53)) in *.
  assert (Hn1 : 0 <= n1) by lia.
  assert (Hp1 : 0 < 2 ^ n1) by (apply Z.pow_pos_nonneg; lia).
  assert (Hm1 : round_m1 q l <= B1).
  { unfold round_m1.
    destruct (Z.eq_dec q B) as [Heq|Hne].
    - assert (Hdq : (2 ^ n1 | q)) by (exists B1; lia).
      rewrite (Hl Heq). rewrite shr_rec_exact; [|lia|exact Hdq].
      simpl. fold n1. rewrite Heq, HB, Z.div_mul by lia. lia.
    - rewrite shr_rec_m by lia. fold n1.
      pose proof (round_nearest_even_bounds (q / 2 ^ n1)
        (loc_of_shr_record (shr_rec (shr_record_of_loc q l) (Zdigits2 q - 53)))) as Hr.
      assert (q / 2 ^ n1 < B1).
      { apply Z.div_lt_upper_bound; [done|]. clearbody n1. lia. }
      lia. }
  pose proof (round_m1_bounds q l ltac:(lia)) as [Hpos _].
  unfold round_m, round_d. fold n1. rewrite shr_rec_m by done.
  set (n2 := Z.max 0 (Zdigits2 (round_m1 q l) - 53)).
  assert (Hp2 : 0 < 2 ^ n2) by (apply Z.pow_pos_nonneg; lia).
  rewrite Z.pow_add_r by lia.
  pose proof (Z.mul_div_le (round_m1 q l) (2 ^ n2) Hp2). nia.
Qed.

Lemma binary_round_aux_upTo q e l B lo N :
  0 < q <= B → (q = B → l = loc_Exact) →
  (2 ^ Z.max 0 (Zdigits2 q - 53) | B) →
  -300 <= e <= 900 → lo <= e → e + Zdigits2 q <= 900 →
  B * 2 ^ (e + 300) <= N * 2 ^ 300 →
  upTo lo N (binary_round_aux prec emax false q e l).
Proof.
  intros Hq Hl Hd He Hlo Hdig HB.
  destruct (round_bound q l B Hq Hl Hd) as [Hm Hb].
  pose proof (round_d_bounds q l ltac:(lia)) as Hrd.
  rewrite binary_round_aux_eq by lia.
  destruct (e + round_d q l <=? 971) eqn:El; [|apply Z.leb_gt in El; lia].
  unfold upTo. split; [lia|].
  rewrite Z2Pos.id by done.
  replace (e + round_d q l + 300) with (round_d q l + (e + 300)) by lia.
  rewrite Z.pow_add_r by lia.
  assert (0 <= 2 ^ (e + 300)) by (apply Z.pow_nonneg; lia). nia.
Qed.

Lemma upTo_weaken lo lo' N N' f :
  lo' <= lo → N <= N' → upTo lo N f → upTo lo' N' f.
Proof.
  intros Hlo HN. destruct f as [| | |[] m e]; simpl; try done.
  intros [He Hm]. split; [lia|].
  assert (0 <= 2 ^ 300) by (apply Z.pow_nonneg; lia). nia.
Qed.

(** The integral part of a float between zero and [N]. *)
Lemma truncate_upTo indefinite lo N f :
  -300 <= lo → 0 <= N <= mostPositive → upTo lo N f →
  0 <= int64_of_float64 indefinite f <= N.
Proof.
  intros Hlo HN. destruct f as [s| | |[] m e]; simpl; try done.
  - intros _. unfold int64_of_float64. simpl. lia.
  - intros [He Hm]. unfold int64_of_float64. cbn [is_finite truncate cond_Zopp andb].
    assert (Ht : 0 <= Z.shiftl (Z.pos m) e <= N).
    { destruct (Z_le_gt_dec 0 e) as [Hp|Hn].
      - rewrite Z.shiftl_mul_pow2 by done.
        rewrite Z.pow_add_r in Hm by lia.
        assert (0 < 2 ^ 300) by (apply Z.pow_pos_nonneg; lia).
        assert (0 <= 2 ^ e) by (apply Z.pow_nonneg; lia). nia.
      - rewrite Z.shiftl_div_pow2 by lia.
        assert (0 < 2 ^ (- e)) by (apply Z.pow_pos_nonneg; lia).
        assert (0 < 2 ^ (e + 300)) by (apply Z.pow_pos_nonneg; lia).
        assert (H300 : 2 ^ 300 = 2 ^ (e + 300) * 2 ^ (- e)).
        { rewrite <- Z.pow_add_r by lia. f_equal. lia. }
        rewrite H300 in Hm. split; [apply Z.div_pos; lia|].
        apply Z.div_le_upper_bound; [done|]. nia. }
    assert (Hin : in_int64b (Z.shiftl (Z.pos m) e) = true).
    { apply in_int64b_spec. unfold in_int64, mostNegative, mostPositive in *. lia. }
    by rewrite Hin.
Qed.

Lemma upTo_mantissa lo N m e :
  0 <= N → -300 <= lo → upTo lo (2 ^ N) (S754_finite false m e) →
  e <= N ∧ Z.pos m <= 2 ^ (N - e).
Proof.
  intros HN Hlo [He Hm]. rewrite <- Z.pow_add_r in Hm by lia.
  assert (He' : e + 300 <= N + 300).
  { apply (Z.pow_le_mono_r_iff 2); [lia|lia|].
    assert (0 < 2 ^ (e + 300)) by (apply Z.pow_pos_nonneg; lia). nia. }
  split; [lia|].
  replace (N + 300) with ((N - e) + (e + 300)) in Hm by lia.
  rewrite (Z.pow_add_r 2 (N - e) (e + 300)) in Hm by lia.
  assert (0 < 2 ^ (e + 300)) by (apply Z.pow_pos_nonneg; lia). nia.
Qed.

Lemma f100_eq : f100 = S754_finite false 7036874417766400 (-46).
Proof. reflexivity. Qed.

(** Times 100: from at most 2 to at most 200. *)
Lemma fmul_100_upTo lo x :
  -250 <= lo → upTo lo 2 x → upTo (lo - 46) 200 (fmul x f100).
Proof.
  intros Hlo Hx. rewrite f100_eq. destruct x as [s| | |[] m e]; try done.
  pose proof (upTo_mantissa lo 1 m e ltac:(lia) ltac:(lia) Hx) as [He Hm].
  destruct Hx as [Hlo' _].
  unfold fmul, SFmul. cbn [xorb]. rewrite Pos2Z.inj_mul.
  assert (Hp : 0 < 2 ^ (1 - e)) by (apply Z.pow_pos_nonneg; lia).
  assert (HB : 2 ^ (49 - e) = 2 ^ (1 - e) * 2 ^ 48).
  { rewrite <- Z.pow_add_r by lia. f_equal. lia. }
  assert (Hq : Z.pos m * 7036874417766400 <= 25 * 2 ^ (49 - e)).
  { rewrite HB. change 7036874417766400 with (25 * 2 ^ 48). nia. }
  assert (Hdig : Zdigits2 (Z.pos m * 7036874417766400) <= 54 - e).
  { apply Zdigits2_lt; [lia|lia|].
    replace (54 - e) with (5 + (49 - e)) by lia. rewrite Z.pow_add_r by lia.
    assert (0 < 2 ^ (49 - e)) by (apply Z.pow_pos_nonneg; lia).
    change (2 ^ 5) with 32. lia. }
  apply (binary_round_aux_upTo _ _ _ (25 * 2 ^ (49 - e))); try lia.
  - done.
  - set (n1 := Z.max 0 (Zdigits2 (Z.pos m * 7036874417766400) - 53)).
    exists (25 * 2 ^ (49 - e - n1)).
    rewrite <- Z.mul_assoc, <- Z.pow_add_r by lia. do 2 f_equal. lia.
  - rewrite <- Z.mul_assoc, <- Z.pow_add_r by lia.
    replace (49 - e + (e + -46 + 300)) with (3 + 300) by lia.
    rewrite Z.pow_add_r by lia. change (2 ^ 3) with 8. lia.
Qed.

Lemma shl_align_fst m e e' :
  e' <= e → Z.pos (fst (shl_align m e e')) = Z.pos m * 2 ^ (e - e').
Proof.
  intros He. unfold shl_align.
  destruct (e' - e) as [|k|k] eqn:E; simpl fst; try lia.
  - replace (e - e') with 0 by lia. lia.
  - rewrite pos_iter_xO. f_equal. f_equal. lia.
Qed.

(** [binary_round] first aligns the mantissa to 53 bits. *)
Lemma binary_round_align s p e :
  -900 <= e →
  ∃ j, 0 <= j <= 52 ∧
    binary_round prec emax s p e =
      binary_round_aux prec emax s (Z.pos p * 2 ^ j) (e - j) loc_Exact.
Proof.
  intros He. unfold binary_round, shl_align, fexp, emin, prec, emax.
  pose proof (digits2_bounds p) as _.
  assert (Hd : 0 < Z.pos (digits2_pos p)) by lia.
  replace (Z.max (Z.pos (digits2_pos p) + e - 53) (3 - 1024 - 53) - e)
    with (Z.pos (digits2_pos p) - 53) by lia.
  destruct (Z.pos (digits2_pos p) - 53) as [|k|k] eqn:E.
  - exists 0. split; [lia|]. by rewrite Z.mul_1_r, Z.sub_0_r.
  - exists 0. split; [lia|]. by rewrite Z.mul_1_r, Z.sub_0_r.
  - exists (Z.pos k). split; [lia|]. rewrite pos_iter_xO. do 2 f_equal. lia.
Qed.

(** The sum of two floats of at most 1 is at most 2. *)
Lemma fadd_upTo lo x y :
  -200 <= lo → upTo lo 1 x → upTo lo 1 y → upTo (lo - 52) 2 (fadd x y).
Proof.
  intros Hlo Hx Hy.
  destruct x as [sx| | |[] mx ex], y as [sy| | |[] my ey]; try done.
  - by destruct sx, sy.
  - unfold fadd. cbn [SFadd]. apply (upTo_weaken lo _ 1); [lia|lia|done].
  - unfold fadd. cbn [SFadd]. apply (upTo_weaken lo _ 1); [lia|lia|done].
  - pose proof (upTo_mantissa lo 0 mx ex ltac:(lia) ltac:(lia) Hx) as [Hex Hmx].
    pose proof (upTo_mantissa lo 0 my ey ltac:(lia) ltac:(lia) Hy) as [Hey Hmy].
    destruct Hx as [Hlx _], Hy as [Hly _].
    unfold fadd, SFadd. cbn [cond_Zopp].
    set (ez := Z.min ex ey).
    rewrite !shl_align_fst by lia.
    assert (HS : Z.pos mx * 2 ^ (ex - ez) + Z.pos my * 2 ^ (ey - ez) <= 2 ^ (1 - ez)).
    { assert (P1 : 2 ^ (0 - ex) * 2 ^ (ex - ez) = 2 ^ (0 - ez))
        by (rewrite <- Z.pow_add_r by lia; f_equal; lia).
      assert (P2 : 2 ^ (0 - ey) * 2 ^ (ey - ez) = 2 ^ (0 - ez))
        by (rewrite <- Z.pow_add_r by lia; f_equal; lia).
      assert (P3 : 2 ^ (1 - ez) = 2 * 2 ^ (0 - ez)).
      { replace (1 - ez) with (1 + (0 - ez)) by lia. by rewrite Z.pow_add_r by lia. }
      assert (Hx1 : Z.pos mx * 2 ^ (ex - ez) <= 2 ^ (0 - ex) * 2 ^ (ex - ez))
        by (apply Z.mul_le_mono_nonneg_r; [apply Z.pow_nonneg|]; lia).
      assert (Hy1 : Z.pos my * 2 ^ (ey - ez) <= 2 ^ (0 - ey) * 2 ^ (ey - ez))
        by (apply Z.mul_le_mono_nonneg_r; [apply Z.pow_nonneg|]; lia).
      lia. }
    assert (0 < 2 ^ (ex - ez)) by (apply Z.pow_pos_nonneg; lia).
    assert (0 < 2 ^ (ey - ez)) by (apply Z.pow_pos_nonneg; lia).
    destruct (Z.pos mx * 2 ^ (ex - ez) + Z.pos my * 2 ^ (ey - ez)) as [|S|S] eqn:ES;
      [nia| |nia].
    unfold binary_normalize.
    destruct (binary_round_align false S ez ltac:(lia)) as (j & Hj & ->).
    assert (0 < 2 ^ j) by (apply Z.pow_pos_nonneg; lia).
    assert (Hq : Z.pos S * 2 ^ j <= 2 ^ (1 - ez + j)).
    { rewrite Z.pow_add_r by lia. nia. }
    assert (Hdig : Zdigits2 (Z.pos S * 2 ^ j) <= 1 - ez + j + 1)
      by (apply Zdigits2_le; lia).
    apply (binary_round_aux_upTo _ _ _ (2 ^ (1 - ez + j))); try lia.
    + done.
    + set (n1 := Z.max 0 (Zdigits2 (Z.pos S * 2 ^ j) - 53)).
      exists (2 ^ (1 - ez + j - n1)). rewrite <- Z.pow_add_r by lia. f_equal. lia.
    + rewrite <- Z.pow_add_r by lia.
      replace (1 - ez + j + (ez - j + 300)) with (1 + 300) by lia.
      rewrite Z.pow_add_r by lia. change (2 ^ 1) with 2. lia.
Qed.

Lemma digits2_mono p p' :
  Z.pos p <= Z.pos p' → Z.pos (digits2_pos p) <= Z.pos (digits2_pos p').
Proof.
  intros Hp. pose proof (digits2_bounds p) as [Hlo _].
  pose proof (digits2_bounds p') as [_ Hhi].
  assert (Hlt : 2 ^ (Z.pos (digits2_pos p) - 1) < 2 ^ Z.pos (digits2_pos p')) by lia.
  apply Z.pow_lt_mono_r_iff in Hlt; lia.
Qed.

(** [float64(p)] below 2^53: the 53 bit mantissa p * 2^(53 - d) at the
    exponent d - 53, for d the number of bits of p. *)
Lemma binary_round_small s p :
  Z.pos p < 2 ^ 53 →
  ∃ m, binary_round prec emax s p 0 =
         S754_finite s m (Z.pos (digits2_pos p) - 53) ∧
       Z.pos m = Z.pos p * 2 ^ (53 - Z.pos (digits2_pos p)) ∧
       Z.pos (digits2_pos m) = 53.
Proof.
  intros Hp. unfold binary_round. rewrite shl_align_int.
  assert (Hd : Z.pos (digits2_pos p) <= 53) by (apply (Zdigits2_lt (Z.pos p)); lia).
  destruct (Z.pos (digits2_pos p) - 53) as [|k|k] eqn:E; [|lia|].
  - rewrite binary_round_aux_canonical by (simpl; lia).
    exists p. simpl. replace (53 - Z.pos (digits2_pos p)) with 0 by lia.
    split_and!; [done|lia|lia].
  - rewrite binary_round_aux_canonical;
      [|lia|cbn [Zdigits2]; rewrite digits2_iter_xO; lia|lia].
    exists (Pos.iter xO p k). simpl. split_and!; [done| |rewrite digits2_iter_xO; lia].
    rewrite pos_iter_xO. do 2 f_equal. lia.
Qed.

(** A whole number divided by one that is not less: at most 1. *)
Lemma fdiv_int_upTo a c :
  0 <= a <= c → 0 < c < 2 ^ 53 →
  upTo (-105) 1 (fdiv (float64_of_int64 a) (float64_of_int64 c)).
Proof.
  intros Ha Hc. unfold float64_of_int64, binary_normalize.
  destruct c as [|pc|pc]; try lia.
  destruct (binary_round_small false pc) as (Mc & -> & HMc & HdMc); [lia|].
  destruct a as [|pa|pa]; [done| |lia].
  destruct (binary_round_small false pa) as (Ma & -> & HMa & HdMa); [lia|].
  pose proof (digits2_mono pa pc ltac:(lia)) as Hmono.
  pose proof (digits2_bounds pa) as _.
  assert (Hda : 0 < Z.pos (digits2_pos pa) <= 53)
    by (split; [lia|apply (Zdigits2_lt (Z.pos pa)); lia]).
  assert (Hdc : Z.pos (digits2_pos pc) <= 53) by (apply (Zdigits2_lt (Z.pos pc)); lia).
  set (da := Z.pos (digits2_pos pa)) in *. set (dc := Z.pos (digits2_pos pc)) in *.
  unfold fdiv, SFdiv, SFdiv_core_binary. cbn [Zdigits2 xorb]. rewrite HdMa, HdMc.
  replace (Z.min (fexp prec emax (53 + (da - 53) - (53 + (dc - 53)))) (da - 53 - (dc - 53)))
    with (da - dc - 53) by (unfold fexp, emin, prec, emax; lia).
  replace (da - 53 - (dc - 53) - (da - dc - 53)) with 53 by lia.
  cbv beta iota zeta.
  destruct (Z.div_eucl (Z.shiftl (Z.pos Ma) 53) (Z.pos Mc)) as [q r] eqn:Hqr.
  assert (Hq : q = Z.pos Ma * 2 ^ 53 / Z.pos Mc).
  { change q with (fst (q, r)). rewrite <- Hqr.
    change (fst (Z.div_eucl ?x ?y)) with (x / y). by rewrite Z.shiftl_mul_pow2 by lia. }
  assert (Hr : r = (Z.pos Ma * 2 ^ 53) mod Z.pos Mc).
  { change r with (snd (q, r)). rewrite <- Hqr.
    change (snd (Z.div_eucl ?x ?y)) with (x mod y). by rewrite Z.shiftl_mul_pow2 by lia. }
  clear Hqr.
  assert (HMc53 : Z.pos Mc < 2 ^ 53).
  { pose proof (digits2_bounds Mc) as [_ H]. by rewrite HdMc in H. }
  assert (HMa52 : 2 ^ 52 <= Z.pos Ma).
  { pose proof (digits2_bounds Ma) as [H _]. by rewrite HdMa in H. }
  (* both sides of a <= c at the common scale *)
  assert (Hpa : 0 < 2 ^ (53 - da)) by (apply Z.pow_pos_nonneg; lia).
  assert (Hpc : 0 < 2 ^ (53 - dc)) by (apply Z.pow_pos_nonneg; lia).
  assert (HB : 2 ^ (53 - (da - dc)) = 2 ^ 53 * 2 ^ (dc - da))
    by (rewrite <- Z.pow_add_r by lia; f_equal; lia).
  assert (Hpd : 0 < 2 ^ (dc - da)) by (apply Z.pow_pos_nonneg; lia).
  assert (Hsc : 2 ^ (53 - da) = 2 ^ (53 - dc) * 2 ^ (dc - da))
    by (rewrite <- Z.pow_add_r by lia; f_equal; lia).
  assert (Hle : Z.pos Ma * 2 ^ 53 <= Z.pos Mc * 2 ^ (53 - (da - dc))).
  { rewrite HB, HMa, HMc, Hsc. nia. }
  assert (Hqpos : 0 < q).
  { subst q. apply Z.div_str_pos. nia. }
  assert (HqB : q <= 2 ^ (53 - (da - dc))).
  { subst q. apply Z.div_le_upper_bound; [lia|]. lia. }
  apply (binary_round_aux_upTo _ _ _ (2 ^ (53 - (da - dc)))); try lia.
  - intros HqeqB.
    assert (Hge : Z.pos Mc * 2 ^ (53 - (da - dc)) <= Z.pos Ma * 2 ^ 53).
    { rewrite <- HqeqB, Hq. apply Z.mul_div_le. lia. }
    assert (Hac : Z.pos pc <= Z.pos pa).
    { rewrite HB, HMa, HMc, Hsc in Hge. nia. }
    assert (pa = pc) by lia. subst pc.
    assert (Hdd : dc = da) by reflexivity.
    assert (Ma = Mc) by (rewrite Hdd in HMc; lia). subst Mc.
    rewrite Z.mul_comm, Z.mod_mul in Hr by lia. subst r.
    unfold new_location. by destruct (Z.even (Z.pos Ma)).
  - assert (Hdig : Zdigits2 q <= 53 - (da - dc) + 1) by (apply Zdigits2_le; lia).
    set (n1 := Z.max 0 (Zdigits2 q - 53)).
    exists (2 ^ (53 - (da - dc) - n1)). rewrite <- Z.pow_add_r by lia. f_equal. lia.
  - assert (Hdig : Zdigits2 q <= 53 - (da - dc) + 1) by (apply Zdigits2_le; lia). lia.
  - rewrite <- Z.pow_add_r by lia.
    replace (53 - (da - dc) + (da - dc - 53 + 300)) with 300 by lia. lia.
Qed.

Lemma ratioScore_bounds indefinite cpuRequested cpuCapacity memRequested memCapacity :
  0 <= cpuRequested <= cpuCapacity → 0 < cpuCapacity < 2 ^ 53 →
  0 <= memRequested <= memCapacity → 0 < memCapacity < 2 ^ 53 →
  0 <= int64_of_float64 indefinite
         (ratioScore cpuRequested cpuCapacity memRequested memCapacity) <= 200.
Proof.
  intros Hc Hcc Hm Hmc. unfold ratioScore.
  apply (truncate_upTo _ (-105 - 52 - 46)); [lia|unfold mostPositive; lia|].
  apply fmul_100_upTo; [lia|].
  apply fadd_upTo; [lia|by apply fdiv_int_upTo..].
Qed.

(** X13: a labelled node whose totals do not exceed its capacities (both
    capacities above zero and below 2^53) scores between 0 and 200, on
    every platform; it never reaches the 1000 of a node without the label. *)
Theorem GroupPriority_labelled_bounds indefinite (pod : Pod) (nodes : list Node) (w : World)
    (i : nat) (node : Node) (pods : list object)
    (cpuRequested memRequested cpuCapacity memCapacity : Z) :
  nodes !! i = Some node →
  hasScaleLabel node →
  ByIndex (indexer w) "node" (Name (NodeMeta node)) = (pods, None) →
  Quantity.AsInt64 (sumRequests pods (zero, zero)).1 = (cpuRequested, true) →
  Quantity.AsInt64 (sumRequests pods (zero, zero)).2 = (memRequested, true) →
  Quantity.AsInt64 (Cpu (Capacity (NodeStat node))) = (cpuCapacity, true) →
  Quantity.AsInt64 (Memory (Capacity (NodeStat node))) = (memCapacity, true) →
  0 <= cpuRequested <= cpuCapacity → 0 < cpuCapacity < 2 ^ 53 →
  0 <= memRequested <= memCapacity → 0 < memCapacity < 2 ^ 53 →
  ∃ score,
    (GroupPriority indefinite pod nodes w).1.1 !! i =
      Some (mkHostPriority (Name (NodeMeta node)) score) ∧
    0 <= score <= 200.
Proof.
  intros Hi Hl Hidx Hc Hm Hnc Hnm Hcr Hcc Hmr Hmc.
  eexists. split.
  - rewrite (GroupPriority_lookup _ _ _ _ _ _ Hi). unfold nodeEntry.
    by rewrite (nodeScore_labelled _ _ _ _ _ _ _ _ Hl Hidx Hc Hm Hnc Hnm).
  - by apply ratioScore_bounds.
Qed.

Lemma GroupPriority_labelled_bounds_witness :
  ([Sample.n2; Sample.n1] !! 1%nat = Some Sample.n1 ∧
   hasScaleLabel Sample.n1 ∧
   ByIndex (indexer Sample.world) "node" "n1" = ([ObjPod Sample.p1; ObjPod Sample.p2], None) ∧
   Quantity.AsInt64 (sumRequests [ObjPod Sample.p1; ObjPod Sample.p2] (zero, zero)).1 = (2, true) ∧
   Quantity.AsInt64 (sumRequests [ObjPod Sample.p1; ObjPod Sample.p2] (zero, zero)).2 = (2147483648, true) ∧
   Quantity.AsInt64 (Cpu (Capacity (NodeStat Sample.n1))) = (4, true) ∧
   Quantity.AsInt64 (Memory (Capacity (NodeStat Sample.n1))) = (8589934592, true) ∧
   0 <= 2 <= 4 ∧ 0 < 4 < 2 ^ 53 ∧
   0 <= 2147483648 <= 8589934592 ∧ 0 < 8589934592 < 2 ^ 53) ∧
  ∃ score,
    (GroupPriority amd64 Sample.p3 [Sample.n2; Sample.n1] Sample.world).1.1 !! 1%nat =
      Some (mkHostPriority "n1" score) ∧
    0 <= score <= 200.
Proof.
  split; [split_and!; try (by vm_compute); lia|].
  apply (GroupPriority_labelled_bounds amd64 Sample.p3 [Sample.n2; Sample.n1] Sample.world
           1 Sample.n1 [ObjPod Sample.p1; ObjPod Sample.p2] 2 2147483648 4 8589934592);
    try (by vm_compute); lia.
Defined.
